(** * OCR_online: text cleaning, similarity gate, contrast transform

    A shallow embedding of the algorithmic core of the repository:
    - [cleanOcrText], [preprocessImage]'s pixel loop and the error
      classification of [performGeminiOCR] (services/ocrService);
    - [calculateSimilarity] and [playTTS] (App).

    JavaScript strings are sequences of UTF-16 code units; [split('')],
    regular expressions without the [u] flag, [includes] and [===] all work
    on code units.  A string is therefore a [list Z] of code units. *)

From Stdlib Require Import ZArith QArith Qround Qminmax List Ascii String Lia Bool.

From stdpp Require Import base list gmap.

Local Open Scope Z_scope.

(** * The program *)

(** ** Strings *)

Abbreviation jsstring := (list Z).

Module Utf.

(** Source literals are written here as Rocq strings (UTF-8 bytes) and
    converted to UTF-16 code units. *)

Definition bytes_of (s : string) : list Z :=
  List.map (fun a => Z.of_N (N_of_ascii a)) (list_ascii_of_string s).

Definition cont (b : Z) : Z := Z.land b 0x3F.

Fixpoint code_points (bs : list Z) : list Z :=
  match bs with
  | [] => []
  | b0 :: r0 =>
    if b0 <? 0x80 then b0 :: code_points r0
    else match r0 with
    | [] => []
    | b1 :: r1 =>
      if b0 <? 0xE0 then
        (Z.shiftl (Z.land b0 0x1F) 6 + cont b1) :: code_points r1
      else match r1 with
      | [] => []
      | b2 :: r2 =>
        if b0 <? 0xF0 then
          (Z.shiftl (Z.land b0 0x0F) 12 + Z.shiftl (cont b1) 6 + cont b2)
            :: code_points r2
        else match r2 with
        | [] => []
        | b3 :: r3 =>
          (Z.shiftl (Z.land b0 0x07) 18 + Z.shiftl (cont b1) 12
           + Z.shiftl (cont b2) 6 + cont b3) :: code_points r3
        end
      end
    end
  end.

Definition units_of_point (cp : Z) : list Z :=
  if cp <? 0x10000 then [cp]
  else [0xD800 + Z.shiftr (cp - 0x10000) 10; 0xDC00 + Z.land (cp - 0x10000) 0x3FF].

Definition js (s : string) : jsstring :=
  List.concat (List.map units_of_point (code_points (bytes_of s))).

End Utf.

Abbreviation js := Utf.js.

(** [s1 === s2] on strings. *)
Definition str_eqb (s1 s2 : jsstring) : bool := bool_decide (s1 = s2).

(** [!text] for a string: only the empty string is falsy. *)
Definition falsy (s : jsstring) : bool :=
  match s with [] => true | _ => false end.

(** [s.includes(pat)]: [pat] occurs as a contiguous run of code units. *)
Fixpoint starts_with (pat s : jsstring) : bool :=
  match pat, s with
  | [], _ => true
  | _ :: _, [] => false
  | p :: pat', c :: s' => (p =? c) && starts_with pat' s'
  end.

Fixpoint includes (s pat : jsstring) : bool :=
  starts_with pat s ||
  match s with
  | [] => false
  | _ :: s' => includes s' pat
  end.

(** ** Character classes of the regular expressions *)

(** [/[一-龥]/] *)
Definition isChinese (c : Z) : bool := (0x4E00 <=? c) && (c <=? 0x9FA5).

(** [a-zA-Z0-9] *)
Definition isAlnum (c : Z) : bool :=
  ((0x61 <=? c) && (c <=? 0x7A)) || ((0x41 <=? c) && (c <=? 0x5A))
  || ((0x30 <=? c) && (c <=? 0x39)).

(** [\s]: ECMAScript WhiteSpace and LineTerminator code units; this is
    also the set removed by [trim]. *)
Definition isSpace (c : Z) : bool :=
  ((0x09 <=? c) && (c <=? 0x0D)) || (c =? 0x20) || (c =? 0xA0) || (c =? 0x1680)
  || ((0x2000 <=? c) && (c <=? 0x200A)) || (c =? 0x2028) || (c =? 0x2029)
  || (c =? 0x202F) || (c =? 0x205F) || (c =? 0x3000) || (c =? 0xFEFF).

Definition memZ (c : Z) (l : list Z) : bool := List.existsb (Z.eqb c) l.

(** The punctuation listed in the class of [isSpecialSymbol]:
    U+FF0C U+3002 U+FF01 ? U+FF1F U+FF1A U+FF1B U+FF08 U+FF09
    U+300C U+300D U+300E U+300F. *)
Definition keptPunctuation : list Z :=
  [0xFF0C; 0x3002; 0xFF01; 0x3F; 0xFF1F; 0xFF1A; 0xFF1B; 0xFF08; 0xFF09;
   0x300C; 0x300D; 0x300E; 0x300F].

(** [/[^一-龥a-zA-Z0-9\s...]/.test(curr)] on a single code unit. *)
Definition isSpecialSymbol (c : Z) : bool :=
  negb (isChinese c || isAlnum c || isSpace c || memZ c keptPunctuation).

(** [/[|\\_~^`]/] *)
Definition isNoise (c : Z) : bool := memZ c [0x7C; 0x5C; 0x5F; 0x7E; 0x5E; 0x60].

(** [[!U+FF01?U+FF1F,U+FF0C.U+3002]] *)
Definition isRepeatPunct (c : Z) : bool :=
  memZ c [0x21; 0xFF01; 0x3F; 0xFF1F; 0x2C; 0xFF0C; 0x2E; 0x3002].

(** ** [String.prototype.replace] with a global regular expression

    The engine looks for a match at the current position; on success the
    replacement is emitted and the scan resumes after the match, otherwise
    the code unit is copied and the scan moves one position on.  [match_at]
    gives, for the text starting at the current position, the length of
    the match there and its replacement.  None of the expressions used
    here matches the empty string or looks behind the current position. *)

Section GlobalReplace.
Variable match_at : jsstring -> option (nat * jsstring).

Fixpoint replace_from (skip : nat) (s : jsstring) : jsstring :=
  match s with
  | [] => []
  | c :: rest =>
    match skip with
    | S k => replace_from k rest
    | O =>
      match match_at s with
      | Some (n, repl) => repl ++ replace_from (Nat.pred n) rest
      | None => c :: replace_from O rest
      end
    end
  end.

Definition replace_all (s : jsstring) : jsstring := replace_from O s.
End GlobalReplace.

(** Length of the longest prefix of [s] made of copies of [c]. *)
Fixpoint run_length (c : Z) (s : jsstring) : nat :=
  match s with
  | d :: s' => if d =? c then S (run_length c s') else O
  | [] => O
  end.

(** [/([!...])\1+/g] replaced by ['$1']. *)
Definition match_punct_run (s : jsstring) : option (nat * jsstring) :=
  match s with
  | c :: rest =>
    if isRepeatPunct c then
      match run_length c rest with
      | O => None
      | S n => Some (S (S n), [c])
      end
    else None
  | [] => None
  end.

(** [/[ ]+/g] replaced by [' ']. *)
Definition match_spaces (s : jsstring) : option (nat * jsstring) :=
  match s with
  | c :: rest =>
    if c =? 0x20 then Some (S (run_length 0x20 rest), [0x20]) else None
  | [] => None
  end.

(** Greedy [\s*\n] with backtracking: number of code units consumed. *)
Fixpoint match_ws_nl (s : jsstring) : option nat :=
  match s with
  | [] => None
  | d :: s' =>
    if isSpace d then
      match match_ws_nl s' with
      | Some k => Some (S k)
      | None => if d =? 0x0A then Some 1%nat else None
      end
    else None
  end.

(** [/\n\s*\n/g] replaced by ['\n']. *)
Definition match_blank_lines (s : jsstring) : option (nat * jsstring) :=
  match s with
  | c :: rest =>
    if c =? 0x0A then
      match match_ws_nl rest with
      | Some k => Some (S k, [0x0A])
      | None => None
      end
    else None
  | [] => None
  end.

(** [trim] *)
Fixpoint trimStart (s : jsstring) : jsstring :=
  match s with
  | c :: s' => if isSpace c then trimStart s' else s
  | [] => []
  end.

Definition trimEnd (s : jsstring) : jsstring := rev (trimStart (rev s)).

Definition trim (s : jsstring) : jsstring := trimEnd (trimStart s).

(** ** cleanOcrText *)

(** [chars[k]], with [undefined] outside the array. *)
Definition at_index (chars : list Z) (k : Z) : option Z :=
  if k <? 0 then None else chars !! Z.to_nat k.

(** [chineseCharPattern.test(x)] guarded by the truthiness test [x &&]:
    an element of [chars] is a one-unit string, hence truthy. *)
Definition definedChinese (x : option Z) : bool :=
  match x with
  | Some c => isChinese c
  | None => false
  end.

(** The condition under which the loop executes [continue] at index [i]. *)
Definition skipped (chars : list Z) (i : nat) : bool :=
  match chars !! i with
  | Some curr =>
    isSpecialSymbol curr
    && definedChinese (at_index chars (Z.of_nat i - 1))
    && definedChinese (at_index chars (Z.of_nat i + 1))
  | None => false
  end.

(** The [for] loop: [result] after visiting the indices [0 .. length-1]. *)
Definition scanSymbols (chars : list Z) : list Z :=
  fold_left
    (fun result i =>
       if skipped chars i then result
       else match chars !! i with
            | Some curr => result ++ [curr]
            | None => result
            end)
    (seq 0 (length chars)) [].

Definition stripNoise (text : jsstring) : jsstring :=
  List.filter (fun c => negb (isNoise c)) text.

Definition collapsePunct : jsstring -> jsstring := replace_all match_punct_run.

Definition collapseSpaces : jsstring -> jsstring := replace_all match_spaces.

Definition collapseBlankLines : jsstring -> jsstring := replace_all match_blank_lines.

Definition cleanOcrText (text : jsstring) : jsstring :=
  if falsy text then []
  else
    let cleaned := stripNoise text in
    let cleaned := scanSymbols cleaned in
    let cleaned := collapsePunct cleaned in
    trim (collapseBlankLines (collapseSpaces cleaned)).

(** ** calculateSimilarity *)

(** A JavaScript [Set] of one-unit strings: the elements in insertion
    order, each once. *)
Module JsSet.
Definition has (s : list Z) (x : Z) : bool := memZ x s.

Definition add (s : list Z) (x : Z) : list Z :=
  if has s x then s else s ++ [x].

(** [new Set(iterable)] *)
Definition of_list (l : list Z) : list Z := fold_left add l [].

Definition size (s : list Z) : nat := length s.
End JsSet.

(** The number returned is the quotient of two sizes.  It is kept as an
    exact rational; the double computed by the engine is its correctly
    rounded value, and comparing either with 0, 1 or 0.25 gives the same
    answer, since the sizes are at most 65536. *)
Definition calculateSimilarity (s1 s2 : jsstring) : Q :=
  if falsy s1 || falsy s2 then 0%Q
  else if str_eqb s1 s2 then 1%Q
  else
    let set1 := JsSet.of_list s1 in
    let set2 := JsSet.of_list s2 in
    let intersection :=
      JsSet.of_list (List.filter (fun x => JsSet.has set2 x) set1) in
    let union := JsSet.of_list (set1 ++ set2) in
    (inject_Z (Z.of_nat (JsSet.size intersection))
     / inject_Z (Z.of_nat (JsSet.size union)))%Q.

(** ** playTTS *)

(** The state read and written by [playTTS]: the component state
    [isSmartSpeech], [isSpeaking], [speechRate] and the ref
    [currentSpeakingTextRef]. *)
Record Speech := {
  isSmartSpeech : bool;
  isSpeaking : bool;
  speechRate : Q;
  currentSpeakingText : jsstring
}.

(** Calls made on [window.speechSynthesis]. *)
Inductive effect :=
| Cancel
| Speak (text : jsstring) (rate : Q).

Definition stopAllSpeech (st : Speech) : Speech * list effect :=
  ({| isSmartSpeech := isSmartSpeech st;
      isSpeaking := false;
      speechRate := speechRate st;
      currentSpeakingText := [] |},
   [Cancel]).

Definition inProgress : jsstring := js "正在辨識".

Definition failed : jsstring := js "辨識失敗".

Definition noText : jsstring := js "無文字".

Definition playTTS (st : Speech) (text : jsstring) (force : bool)
  : Speech * list effect :=
  if falsy text || includes text inProgress || includes text failed
     || str_eqb text noText
  then (st, [])
  else
    let suppressed :=
      if isSmartSpeech st && isSpeaking st && negb force then
        let similarity := calculateSimilarity text (currentSpeakingText st) in
        Qle_bool (1 # 4) similarity
      else false in
    if suppressed then (st, [])
    else
      let '(st', calls) := stopAllSpeech st in
      (st', calls ++ [Speak text (speechRate st)]).

(** The decision of the gate: does [playTTS] start playback? *)
Definition shouldSpeak (st : Speech) (text : jsstring) (force : bool) : bool :=
  match snd (playTTS st text force) with
  | [] => false
  | _ :: _ => true
  end.

(** ** The contrast loop of preprocessImage *)

Module Image.

(** A JavaScript number of the loop: an exact rational, or [None] for
    [NaN] (the sum of three channel values is an integer below 766, its
    third and the shifted value are computed by the engine to within one
    unit in the last place, which the final rounding to a byte absorbs). *)
Definition num := option Q.

(** [data[i]] in arithmetic position: [undefined] becomes [NaN]. *)
Definition read (data : list Z) (i : nat) : num := inject_Z <$> data !! i.

Definition add (x y : num) : num :=
  match x, y with
  | Some a, Some b => Some (a + b)%Q
  | _, _ => None
  end.

Definition div (x : num) (d : Q) : num :=
  match x with
  | Some a => Some (a / d)%Q
  | None => None
  end.

Definition Qlt_bool (a b : Q) : bool := negb (Qle_bool b a).

(** [avg < 120 ? Math.max(0, avg - 40) : Math.min(255, avg + 40)] *)
Definition contrast (avg : num) : num :=
  match avg with
  | Some a =>
    Some (if Qlt_bool a 120 then Qmax 0 (a - 40) else Qmin 255 (a + 40))
  | None => None
  end.

(** The conversion applied when a number is stored in a
    [Uint8ClampedArray] (ToUint8Clamp). *)
Definition ToUint8Clamp (x : num) : Z :=
  match x with
  | None => 0
  | Some q =>
    if Qle_bool q 0 then 0
    else if Qle_bool 255 q then 255
    else
      let f := Qfloor q in
      if Qlt_bool (inject_Z f + (1 # 2)) q then f + 1
      else if Qlt_bool q (inject_Z f + (1 # 2)) then f
      else if Z.even f then f else f + 1
  end.

(** The body of the loop at index [i]. *)
Definition pixel (data : list Z) (i : nat) : list Z :=
  let avg :=
    div (add (add (read data i) (read data (i + 1))) (read data (i + 2))) 3 in
  let color := contrast avg in
  let data := <[i := ToUint8Clamp color]> data in
  let data := <[(i + 1)%nat := ToUint8Clamp color]> data in
  <[(i + 2)%nat := ToUint8Clamp color]> data.

(** The values taken by [i] in [for (i = 0; i < len; i += 4)]. *)
Definition pixel_starts (len : nat) : list nat :=
  List.filter (fun i => (i mod 4 =? 0)%nat) (seq 0 len).

Definition contrastPixels (data : list Z) : list Z :=
  fold_left pixel (pixel_starts (length data)) data.

End Image.

(** ** performGeminiOCR *)

Module Gemini.

(** A thrown value as the handler sees it: its [message], if any. *)
Record JsError := { message : option jsstring }.

Definition Error (m : jsstring) : JsError := {| message := Some m |}.

Inductive outcome (A : Type) :=
| Return (a : A)
| Throw (e : JsError).

Arguments Return {A} a.

Arguments Throw {A} e.

(** [\w] *)
Definition isWord (c : Z) : bool := isAlnum c || (c =? 0x5F).

(** [.] without the [s] flag: anything but a line terminator. *)
Definition isDot (c : Z) : bool :=
  negb ((c =? 0x0A) || (c =? 0x0D) || (c =? 0x2028) || (c =? 0x2029)).

Fixpoint strip_prefix (pat s : jsstring) : option jsstring :=
  match pat, s with
  | [], _ => Some s
  | _ :: _, [] => None
  | p :: pat', c :: s' => if p =? c then strip_prefix pat' s' else None
  end.

Fixpoint span (f : Z -> bool) (s : jsstring) : jsstring * jsstring :=
  match s with
  | c :: s' =>
    if f c then let '(a, b) := span f s' in (c :: a, b) else ([], s)
  | [] => ([], [])
  end.

(** [base64Image.match(/^data:(image\/\w+);base64,(.+)$/)]: the two
    groups.  [\w+] is greedy and [;] is not a word character, so only the
    longest run of word characters can be followed by [;base64,]. *)
Definition matchDataUrl (s : jsstring) : option (jsstring * jsstring) :=
  match strip_prefix (js "data:image/") s with
  | Some rest =>
    let '(word, rest) := span isWord rest in
    if falsy word then None
    else
      match strip_prefix (js ";base64,") rest with
      | Some payload =>
        if negb (falsy payload) && forallb isDot payload
        then Some (js "image/" ++ word, payload)
        else None
      | None => None
      end
  | None => None
  end.

(** [s.split(',')[1]] *)
Definition secondField (s : jsstring) : option jsstring :=
  let '(_, rest) := span (fun c => negb (c =? 0x2C)) s in
  match rest with
  | _ :: rest' => Some (fst (span (fun c => negb (c =? 0x2C)) rest'))
  | [] => None
  end.

(** [response.text?.trim() || "..."] *)
Definition responseText (text : option jsstring) : jsstring :=
  match text with
  | Some t => if falsy (trim t) then noText else trim t
  | None => noText
  end.

Definition rateLimited : jsstring :=
  js "API 請求頻率達到限制 (免費版)，請稍等幾秒後重試。".

Definition incompatibleImage : jsstring :=
  js "影像格式不相容或數據受損，請嘗試重新拍照。".

Definition genericPrefix : jsstring := js "AI 辨識異常: ".

Definition unknownError : jsstring := js "未知錯誤".

(** [error.message?.includes(pat)] in a condition. *)
Definition messageIncludes (e : JsError) (pat : jsstring) : bool :=
  match message e with
  | Some m => includes m pat
  | None => false
  end.

(** [error.message || '...'] *)
Definition messageOr (e : JsError) (default : jsstring) : jsstring :=
  match message e with
  | Some m => if falsy m then default else m
  | None => default
  end.

(** The [catch] block: the error it throws. *)
Definition handler (error : JsError) : JsError :=
  if messageIncludes error (js "429") then Error rateLimited
  else if messageIncludes error (js "INVALID_ARGUMENT")
          || messageIncludes error (js "MIME type")
  then Error incompatibleImage
  else Error (genericPrefix ++ messageOr error unknownError).

Section Backend.
(** [process.env.API_KEY] and the remote call
    [ai.models.generateContent], which returns a response with an
    optional [text] or throws. *)
Variable apiKey : jsstring.
Variable generateContent :
  jsstring -> jsstring -> outcome (option jsstring).

(** The [try] block. *)
Definition attempt (base64Image : jsstring) : outcome jsstring :=
  if falsy apiKey then Throw (Error (js "API Key 未設定"))
  else
    let '(mimeType, imageData) :=
      match matchDataUrl base64Image with
      | Some (mime, payload) => (mime, payload)
      | None =>
        if includes base64Image (js ",")
        then (js "image/jpeg",
              match secondField base64Image with
              | Some d => d
              | None => []
              end)
        else (js "image/jpeg", base64Image)
      end in
    if falsy imageData || (length imageData <? 10)%nat
    then Throw (Error (js "影像數據格式錯誤，請重新拍攝。"))
    else
      match generateContent mimeType imageData with
      | Return response => Return (responseText response)
      | Throw e => Throw e
      end.

Definition performGeminiOCR (base64Image : jsstring) : outcome jsstring :=
  match attempt base64Image with
  | Return text => Return text
  | Throw error => Throw (handler error)
  end.
End Backend.

Definition sampleImage : jsstring := js "data:image/jpeg;base64,/9j/4AAQSkZJRgABAQ".

End Gemini.

(** ** performLocalOCR *)

Module Local.
Import Gemini.

Section Engine.
(** [preprocessImage], whose promise only ever resolves, and
    [Tesseract.recognize], which yields [data.text] or rejects. *)
Variable preprocessImage : jsstring -> jsstring.
Variable recognize : jsstring -> outcome jsstring.

Definition performLocalOCR (base64Image : jsstring) : outcome jsstring :=
  let processedImage := preprocessImage base64Image in
  match recognize processedImage with
  | Return text =>
    let cleanedText := cleanOcrText text in
    Return (if (0 <? length cleanedText)%nat then cleanedText else noText)
  | Throw error =>
    Throw (Error (js "本地辨識失敗: " ++ messageOr error (js "引擎未響應")))
  end.
End Engine.

End Local.

(** ** services/geminiService: performOCR *)

Module Legacy.
Import Gemini.

(** [[a-zA-Z]] *)
Definition isLetter (c : Z) : bool :=
  ((0x61 <=? c) && (c <=? 0x7A)) || ((0x41 <=? c) && (c <=? 0x5A)).

(** [base64Image.match(/^data:(image\/[a-zA-Z]+);base64,(.+)$/)] *)
Definition matchDataUrl (s : jsstring) : option (jsstring * jsstring) :=
  match strip_prefix (js "data:image/") s with
  | Some rest =>
    let '(word, rest) := span isLetter rest in
    if falsy word then None
    else
      match strip_prefix (js ";base64,") rest with
      | Some payload =>
        if negb (falsy payload) && forallb isDot payload
        then Some (js "image/" ++ word, payload)
        else None
      | None => None
      end
  | None => None
  end.

Definition mimeTypeOf (base64Image : jsstring) : jsstring :=
  match matchDataUrl base64Image with
  | Some (mime, _) => mime
  | None => js "image/jpeg"
  end.

Definition imageDataOf (base64Image : jsstring) : jsstring :=
  match matchDataUrl base64Image with
  | Some (_, payload) => payload
  | None =>
    if includes base64Image (js ",")
    then match secondField base64Image with
         | Some d => d
         | None => []
         end
    else base64Image
  end.

Section Backend.
Variable generateContent :
  jsstring -> jsstring -> outcome (option jsstring).

Definition performOCR (base64Image : jsstring) : outcome jsstring :=
  let mimeType := mimeTypeOf base64Image in
  let imageData := imageDataOf base64Image in
  match generateContent mimeType imageData with
  | Return response => Return (responseText response)
  | Throw _ => Throw (Error (js "辨識失敗。"))
  end.
End Backend.

End Legacy.

(** ** The scan loop of App *)

Module Live.
Import Gemini.

Definition SCAN_INTERVAL : Z := 5.

Inductive AppStatus := IDLE | PROCESSING | SUCCESS | ERROR.

Record ScanResult := {
  id : jsstring;
  timestamp : Z;
  imageUrl : jsstring;
  text : jsstring
}.

(** The [latestScan] slot: a scan result with its [isPending] mark. *)
Record Latest := {
  shown : ScanResult;
  isPending : bool
}.

(** The component state that [captureAndProcess], the timer, the upload
    button and the history view read and write, as the render that
    created the callback holds it.  [speech] holds what [playTTS] sees. *)
Record App := {
  status : AppStatus;
  resultText : jsstring;
  errorMsg : option jsstring;
  history : list ScanResult;
  latestScan : option Latest;
  countdown : Z;
  isLiveActive : bool;
  isPaused : bool;
  isAutoTTS : bool;
  speech : Speech
}.

(** What one call of [captureAndProcess] finds outside the render that
    created it: the video and canvas elements, the frame drawn, the
    values of [Date.now()] for the identifier and the two records, and the
    text that [currentSpeakingTextRef] holds once the recognition has
    completed.  The flags [isSmartSpeech] and [isSpeaking] and the rate
    are state of the render, fixed when the scan starts; the ref is
    shared, and the handlers of an utterance may have written it while
    the scan was waiting for the backend. *)
Record Frame := {
  refsReady : bool;
  videoWidth : Z;
  contextReady : bool;
  dataUrl : jsstring;
  tempId : jsstring;
  shownAt : Z;
  storedAt : Z;
  spokenAtCompletion : jsstring
}.

Definition isProcessing (s : AppStatus) : bool :=
  match s with PROCESSING => true | _ => false end.

Section Recognizer.
(** The backend selected by [ocrModel], applied to the frame. *)
Variable recognizeWith : jsstring -> outcome jsstring.

Definition captureAndProcess (app : App) (f : Frame) : App * list effect :=
  if negb (refsReady f) || negb (isLiveActive app) || isPaused app
  then (app, [])
  else if isProcessing (status app) then (app, [])
  else if videoWidth f =? 0 then (app, [])
  else if negb (contextReady f) then (app, [])
  else
    match recognizeWith (dataUrl f) with
    | Return text =>
      if falsy text || str_eqb text noText || (length (trim text) =? 0)%nat
      then
        ({| status := IDLE; resultText := []; errorMsg := None;
            history := history app; latestScan := None;
            countdown := countdown app; isLiveActive := isLiveActive app;
            isPaused := isPaused app; isAutoTTS := isAutoTTS app;
            speech := speech app |}, [])
      else
        let record :=
          {| id := tempId f; timestamp := storedAt f;
             imageUrl := dataUrl f; text := text |} in
        (* [playTTS(text)] after the [await]: the flags and the rate of
           the render, the ref as it is by now. *)
        let seen :=
          {| isSmartSpeech := isSmartSpeech (speech app);
             isSpeaking := isSpeaking (speech app);
             speechRate := speechRate (speech app);
             currentSpeakingText := spokenAtCompletion f |} in
        let '(speech', calls) :=
          if isAutoTTS app then playTTS seen text false
          else (speech app, []) in
        ({| status := SUCCESS; resultText := text; errorMsg := None;
            history := record :: take 49 (history app);
            latestScan :=
              Some {| shown := {| id := tempId f; timestamp := shownAt f;
                                  imageUrl := dataUrl f; text := text |};
                      isPending := false |};
            countdown := countdown app; isLiveActive := isLiveActive app;
            isPaused := isPaused app; isAutoTTS := isAutoTTS app;
            speech := speech' |}, calls)
    | Throw err =>
      let msg := messageOr err (js "辨識失敗") in
      ({| status := ERROR; resultText := resultText app; errorMsg := Some msg;
          history := history app;
          latestScan :=
            Some {| shown := {| id := tempId f; timestamp := shownAt f;
                                imageUrl := dataUrl f;
                                text := js "辨識失敗: " ++ msg |};
                    isPending := false |};
          countdown := SCAN_INTERVAL + 5; isLiveActive := isLiveActive app;
          isPaused := isPaused app; isAutoTTS := isAutoTTS app;
          speech := speech app |}, [])
    end.

(** The handler of the upload button. *)
Definition recognizeUpload (app : App) (image : jsstring) : App * list effect :=
  match recognizeWith image with
  | Return text =>
    let '(speech', calls) := playTTS (speech app) text true in
    ({| status := SUCCESS; resultText := text; errorMsg := None;
        history := history app; latestScan := latestScan app;
        countdown := countdown app; isLiveActive := isLiveActive app;
        isPaused := isPaused app; isAutoTTS := isAutoTTS app;
        speech := speech' |}, calls)
  | Throw err =>
    ({| status := ERROR; resultText := resultText app;
        errorMsg := Some (messageOr err (js "分析失敗"));
        history := history app; latestScan := latestScan app;
        countdown := countdown app; isLiveActive := isLiveActive app;
        isPaused := isPaused app; isAutoTTS := isAutoTTS app;
        speech := speech app |}, [])
  end.
End Recognizer.

(** The update of the one-second timer:
    [prev <= 1 ? SCAN_INTERVAL : prev - 1]. *)
Definition tick (prev : Z) : Z := if prev <=? 1 then SCAN_INTERVAL else prev - 1.

(** The effect that owns the timer: the interval exists while
    [mode === 'live' && isLiveActive && !isPaused]; [liveMode] stands for
    [mode === 'live']. *)
Definition timerRuns (liveMode : bool) (app : App) : bool :=
  liveMode && isLiveActive app && negb (isPaused app).

(** One second of the component: the interval's update, if it exists. *)
Definition second (liveMode : bool) (app : App) : App :=
  if timerRuns liveMode app
  then {| status := status app; resultText := resultText app;
          errorMsg := errorMsg app; history := history app;
          latestScan := latestScan app; countdown := tick (countdown app);
          isLiveActive := isLiveActive app; isPaused := isPaused app;
          isAutoTTS := isAutoTTS app; speech := speech app |}
  else app.

(** The condition under which the scan effect calls [captureAndProcess]:
    [countdown === SCAN_INTERVAL && mode === 'live' && isLiveActive &&
    !isPaused]. *)
Definition scanDue (liveMode : bool) (app : App) : bool :=
  (countdown app =? SCAN_INTERVAL) && liveMode && isLiveActive app
  && negb (isPaused app).

(** The history view: [history.filter(h => h.id !== item.id)]. *)
Definition deleteEntry (history : list ScanResult) (item : ScanResult)
  : list ScanResult :=
  List.filter (fun h => negb (str_eqb (id h) (id item))) history.

End Live.

(** ** The events of the speech state *)

(** What happens to the speech state: a call of [playTTS], the close
    button calling [stopAllSpeech], the two settings of the control bar,
    and an utterance handed to the synthesizer reporting its start, its
    end or an error. *)
Inductive speechEvent :=
| Play (text : jsstring) (force : bool)
| Stop
| ToggleSmart
| SetRate (rate : Q)
| UtteranceStart (text : jsstring)
| UtteranceEnd
| UtteranceError.

Definition speechStep (st : Speech) (ev : speechEvent) : Speech * list effect :=
  match ev with
  | Play text force => playTTS st text force
  | Stop => stopAllSpeech st
  | ToggleSmart =>
    ({| isSmartSpeech := negb (isSmartSpeech st); isSpeaking := isSpeaking st;
        speechRate := speechRate st;
        currentSpeakingText := currentSpeakingText st |}, [])
  | SetRate rate =>
    ({| isSmartSpeech := isSmartSpeech st; isSpeaking := isSpeaking st;
        speechRate := rate;
        currentSpeakingText := currentSpeakingText st |}, [])
  | UtteranceStart text =>
    ({| isSmartSpeech := isSmartSpeech st; isSpeaking := true;
        speechRate := speechRate st; currentSpeakingText := text |}, [])
  | UtteranceEnd | UtteranceError =>
    ({| isSmartSpeech := isSmartSpeech st; isSpeaking := false;
        speechRate := speechRate st; currentSpeakingText := [] |}, [])
  end.

(** The texts handed to the synthesizer by a list of calls. *)
Definition spokenTexts (calls : list effect) : list jsstring :=
  omap (fun e => match e with Speak text _ => Some text | Cancel => None end)
       calls.

(** The state after a sequence of events, with the texts handed to the
    synthesizer on the way.  An utterance can only report the start of a
    text that was handed over before; a sequence in which one does
    otherwise has no run. *)
Fixpoint speechRun (st : Speech) (handed : list jsstring)
  (evs : list speechEvent) : option (Speech * list jsstring) :=
  match evs with
  | [] => Some (st, handed)
  | ev :: rest =>
    let admitted :=
      match ev with
      | UtteranceStart text => bool_decide (text ∈ handed)
      | _ => true
      end in
    if admitted then
      let '(st', calls) := speechStep st ev in
      speechRun st' (spokenTexts calls ++ handed) rest
    else None
  end.

(** The speech state of a freshly mounted component. *)
Definition initialSpeech : Speech :=
  {| isSmartSpeech := true; isSpeaking := false; speechRate := 1;
     currentSpeakingText := [] |}.

(** * Notions used in the statements *)

(** ** Windows of a string *)

(** [a] immediately followed by [b] somewhere in [y]. *)
Definition adjacent (y : list Z) (a b : Z) : Prop :=
  exists l1 l2, y = l1 ++ a :: b :: l2.

(** [a], [b], [c] in a row somewhere in [y]. *)
Definition window3 (y : list Z) (a b c : Z) : Prop :=
  exists l1 l2, y = l1 ++ a :: b :: c :: l2.

(** ** Isolated symbols *)

(** Some special symbol of [y] stands directly between two Chinese
    characters. *)
Fixpoint hasIsolatedSymbol (y : list Z) : bool :=
  match y with
  | p :: t =>
    match t with
    | c :: n :: _ => isChinese p && isSpecialSymbol c && isChinese n
    | _ => false
    end || hasIsolatedSymbol t
  | [] => false
  end.

(** ** The cleaned text *)

(** The invariant of cleaned text as the specification words it. *)
Record CleanedText (y : jsstring) : Prop := {
  no_isolated_symbol : forall p c n,
    window3 y p c n -> isChinese p = true -> isChinese n = true ->
    isSpecialSymbol c = false;
  no_punct_run : forall c, isRepeatPunct c = true -> ~ adjacent y c c;
  no_space_run : ~ adjacent y 0x20 0x20;
  no_blank_run : forall l1 w l2,
    y = l1 ++ 0x0A :: w ++ 0x0A :: l2 -> forallb isSpace w = false
}.

(** What the code guarantees: the same, except that a symbol between two
    Chinese characters may remain when it is one of the half-width marks
    [!], [,] and [.], the special symbols that [collapsePunct] handles. *)
Record CleanedOutput (y : jsstring) : Prop := {
  out_isolated_symbol : forall p c n,
    window3 y p c n -> isChinese p = true -> isChinese n = true ->
    isSpecialSymbol c = true -> c = 0x21 \/ c = 0x2C \/ c = 0x2E;
  out_punct_run : forall c, isRepeatPunct c = true -> ~ adjacent y c c;
  out_space_run : ~ adjacent y 0x20 0x20;
  out_blank_run : forall l1 w l2,
    y = l1 ++ 0x0A :: w ++ 0x0A :: l2 -> forallb isSpace w = false
}.

(** ** The per-character scan *)

(** The character pushed to [result] at index [i], if any. *)
Definition pushed (chars : list Z) (i : nat) : option Z :=
  if skipped chars i then None else chars !! i.

(** The allowed punctuation as the specification lists it: full-width
    comma, period, exclamation mark, question mark, colon, semicolon, the
    parenthesis pair and the two pairs of quotation brackets. *)
Definition fullWidthPunctuation : list Z :=
  [0xFF0C; 0x3002; 0xFF01; 0xFF1F; 0xFF1A; 0xFF1B; 0xFF08; 0xFF09;
   0x300C; 0x300D; 0x300E; 0x300F].

(** Conditions (a)-(d) of the specification on the scanned character. *)
Definition droppable_spec (c : Z) : bool :=
  negb (isChinese c) && negb (isAlnum c) && negb (isSpace c)
  && negb (memZ c fullWidthPunctuation).

(** ** Similarity and the gate *)

(** The set of unique characters of a string, and the Jaccard index of
    two such sets, as the specification words them. *)
Definition charset (s : jsstring) : gset Z := list_to_set s.

Definition jaccard (A B : gset Z) : Q :=
  (inject_Z (Z.of_nat (size (A ∩ B))) / inject_Z (Z.of_nat (size (A ∪ B))))%Q.

(** The similarity score as the specification words it. *)
Definition similarity_spec (s1 s2 : jsstring) : Q :=
  if decide (s1 = [] \/ s2 = []) then 0%Q
  else if decide (s1 = s2) then 1%Q
  else jaccard (charset s1) (charset s2).

(** A text that [playTTS] never speaks. *)
Definition unspeakable (text : jsstring) : bool :=
  falsy text || includes text inProgress || includes text failed
  || str_eqb text noText.

Definition speaking_state : Speech :=
  {| isSmartSpeech := true; isSpeaking := true; speechRate := 1;
     currentSpeakingText := js "今天天氣很好" |}.

Definition quiet_state : Speech :=
  {| isSmartSpeech := false; isSpeaking := true; speechRate := 1;
     currentSpeakingText := js "今天天氣很好" |}.

(** ** The contrast loop on bytes *)

(** The byte stored for a pixel whose three channels sum to [s]: the
    conversion rounds to the nearest integer, and a third of an integer is
    never half way between two integers. *)
Definition stored_byte (s : Z) : Z :=
  if s <? 360 then Z.max 0 ((s + 1) / 3 - 40) else Z.min 255 ((s + 1) / 3 + 40).

(** ** Plain and tidy text *)

(** A character that is a Chinese character, a Latin letter or a digit. *)
Definition isPlain (c : Z) : bool := isChinese c || isAlnum c.

(** What every stage after the scan looks for is absent from [y]. *)
Record Tidy (y : jsstring) : Prop := {
  tidy_noise : forall c, c ∈ y -> isNoise c = false;
  tidy_punct : forall c, adjacent y c c -> isRepeatPunct c = false;
  tidy_space : forall c, adjacent y c c -> (c =? 0x20) = false;
  tidy_blank : forall l1 l2, y = l1 ++ 0x0A :: l2 -> match_ws_nl l2 = None;
  tidy_head : forall c, head y = Some c -> isSpace c = false;
  tidy_last : forall c, last y = Some c -> isSpace c = false
}.

(** ** The speech state and the scan loop *)

(** The text being spoken is recorded exactly while the speaking flag is
    set, and it is a text that [playTTS] accepts. *)
Definition consistent (st : Speech) : Prop :=
  (isSpeaking st = false -> currentSpeakingText st = []) /\
  (isSpeaking st = true -> unspeakable (currentSpeakingText st) = false).

(** A recognized text that the scan loop displays and records. *)
Definition presentable (t : jsstring) : Prop :=
  t <> [] /\ t <> noText /\ trim t <> [].

Definition historyOk (h : list Live.ScanResult) : Prop :=
  (length h <= 50)%nat /\ Forall (fun r => presentable (Live.text r)) h.

(** None of the early returns of [captureAndProcess] is taken. *)
Definition scanReady (app : Live.App) (f : Live.Frame) : bool :=
  Live.refsReady f && Live.isLiveActive app && negb (Live.isPaused app)
  && negb (Live.isProcessing (Live.status app))
  && negb (Live.videoWidth f =? 0) && Live.contextReady f.

(** The record that a scan of frame [f] yielding [t] puts in the
    history. *)
Definition recordOf (f : Live.Frame) (t : jsstring) : Live.ScanResult :=
  {| Live.id := Live.tempId f; Live.timestamp := Live.storedAt f;
     Live.imageUrl := Live.dataUrl f; Live.text := t |}.

(** Sample states of the scan loop. *)
Definition sampleFrame : Live.Frame :=
  {| Live.refsReady := true; Live.videoWidth := 1920;
     Live.contextReady := true; Live.dataUrl := Gemini.sampleImage;
     Live.tempId := js "1762041600000"; Live.shownAt := 1762041600123;
     Live.storedAt := 1762041600124; Live.spokenAtCompletion := [] |}.

(** The same frame, recognized while [speaking_state]'s text is still
    being spoken. *)
Definition frameWhileSpeaking : Live.Frame :=
  {| Live.refsReady := true; Live.videoWidth := 1920;
     Live.contextReady := true; Live.dataUrl := Gemini.sampleImage;
     Live.tempId := js "1762041600000"; Live.shownAt := 1762041600123;
     Live.storedAt := 1762041600124;
     Live.spokenAtCompletion := js "今天天氣很好" |}.

Definition liveApp : Live.App :=
  {| Live.status := Live.IDLE; Live.resultText := []; Live.errorMsg := None;
     Live.history := []; Live.latestScan := None;
     Live.countdown := Live.SCAN_INTERVAL; Live.isLiveActive := true;
     Live.isPaused := false; Live.isAutoTTS := true;
     Live.speech := initialSpeech |}.

(** A component whose history is full: fifty past records. *)
Definition pastRecord (n : nat) : Live.ScanResult :=
  {| Live.id := js "17620415999"
                ++ [0x30 + Z.of_nat (n / 10); 0x30 + Z.of_nat (n mod 10)];
     Live.timestamp := 1762041599900 + Z.of_nat n;
     Live.imageUrl := Gemini.sampleImage; Live.text := js "今天天氣很好" |}.

Definition fullApp : Live.App :=
  {| Live.status := Live.SUCCESS; Live.resultText := js "今天天氣很好";
     Live.errorMsg := None; Live.history := pastRecord <$> seq 0 50;
     Live.latestScan := None;
     Live.countdown := Live.SCAN_INTERVAL; Live.isLiveActive := true;
     Live.isPaused := false; Live.isAutoTTS := true;
     Live.speech := initialSpeech |}.

Definition speakingApp : Live.App :=
  {| Live.status := Live.SUCCESS; Live.resultText := js "今天天氣很好";
     Live.errorMsg := None; Live.history := []; Live.latestScan := None;
     Live.countdown := Live.SCAN_INTERVAL; Live.isLiveActive := true;
     Live.isPaused := false; Live.isAutoTTS := true;
     Live.speech := speaking_state |}.

(** ** The errors of the cloud backend *)

(** The thrown value has a message in which [pat] occurs. *)
Definition mentions (e : Gemini.JsError) (pat : jsstring) : Prop :=
  exists m l1 l2, Gemini.message e = Some m /\ m = l1 ++ pat ++ l2.

(** ** The parts of a data URL *)

(** The MIME type and the payload that [performGeminiOCR] hands to the
    service: the two [let]s set by the [if] chain of its [try] block. *)
Definition imageParts (base64Image : jsstring) : jsstring * jsstring :=
  match Gemini.matchDataUrl base64Image with
  | Some (mime, payload) => (mime, payload)
  | None =>
    if includes base64Image (js ",")
    then (js "image/jpeg",
          match Gemini.secondField base64Image with
          | Some d => d
          | None => []
          end)
    else (js "image/jpeg", base64Image)
  end.

(** * Auxiliary definitions *)

(** ** The replace engine *)

(** Units skipped after the first one when the scan stands at [s]. *)
Definition advance (match_at : jsstring -> option (nat * jsstring))
  (s : jsstring) : nat :=
  match match_at s with
  | Some (n, _) => Nat.pred n
  | None => O
  end.

(** ** The scan as a recursion on the remaining characters *)

Fixpoint scan_from (prev : option Z) (l : list Z) : list Z :=
  match l with
  | [] => []
  | curr :: rest =>
    if isSpecialSymbol curr && definedChinese prev && definedChinese (head rest)
    then scan_from (Some curr) rest
    else curr :: scan_from (Some curr) rest
  end.

Definition with_prev (prev : option Z) (y : list Z) : list Z :=
  match prev with
  | Some q => q :: y
  | None => y
  end.

(** ** The stages after the scan *)

Definition isPlainSpace (c : Z) : bool := c =? 0x20.

(** No newline of [y] is followed by whitespace and another newline. *)
Definition noBlankRun (y : jsstring) : Prop :=
  forall l1 l2, y = l1 ++ 0x0A :: l2 -> match_ws_nl l2 = None.

(** What the stages after the scan leave behind, in the order
    [collapsePunct], [collapseSpaces], [collapseBlankLines], [trim]. *)
Definition finish (z : jsstring) : jsstring :=
  trim (collapseBlankLines (collapseSpaces (collapsePunct z))).

(** * Facts *)

(** ** Windows *)

Example js_units : js "a這$" = [0x61; 0x9019; 0x24].
Proof. reflexivity. Qed.

Lemma adjacent_nil a b : ~ adjacent [] a b.
Proof. intros (l1 & l2 & H). destruct l1; discriminate. Qed.

Lemma adjacent_app_r l y a b : adjacent y a b -> adjacent (l ++ y) a b.
Proof.
  intros (l1 & l2 & ->). exists (l ++ l1), l2. by rewrite <- app_assoc.
Qed.

Lemma adjacent_app_l l y a b : adjacent y a b -> adjacent (y ++ l) a b.
Proof.
  intros (l1 & l2 & ->). exists l1, (l2 ++ l). by rewrite <- app_assoc.
Qed.

Lemma adjacent_cons_inv x y a b :
  adjacent (x :: y) a b -> (x = a /\ head y = Some b) \/ adjacent y a b.
Proof.
  intros (l1 & l2 & H). destruct l1 as [|x' l1]; simpl in H.
  - left. by simplify_eq.
  - right. simplify_eq. by exists l1, l2.
Qed.

Lemma window3_nil a b c : ~ window3 [] a b c.
Proof. intros (l1 & l2 & H). destruct l1; discriminate. Qed.

Lemma window3_app_r l y a b c : window3 y a b c -> window3 (l ++ y) a b c.
Proof.
  intros (l1 & l2 & ->). exists (l ++ l1), l2. by rewrite <- app_assoc.
Qed.

Lemma window3_app_l l y a b c : window3 y a b c -> window3 (y ++ l) a b c.
Proof.
  intros (l1 & l2 & ->). exists l1, (l2 ++ l). by rewrite <- app_assoc.
Qed.

Lemma window3_cons_inv x y a b c :
  window3 (x :: y) a b c ->
  (x = a /\ exists t, y = b :: c :: t) \/ window3 y a b c.
Proof.
  intros (l1 & l2 & H). destruct l1 as [|x' l1]; simpl in H.
  - left. simplify_eq. eauto.
  - right. simplify_eq. by exists l1, l2.
Qed.

(** ** Facts about the replace engine

    The three expressions of [cleanOcrText] share a shape: a match starts
    with a code unit [c] of some class [Q], is replaced by [c] alone, and,
    when longer than one unit, ends with [c] again. *)

Section EngineFacts.
Variable match_at : jsstring -> option (nat * jsstring).
Variable Q : Z -> Prop.

Hypothesis match_shape : forall c rest n repl,
  match_at (c :: rest) = Some (n, repl) ->
  repl = [c] /\ Q c /\
  exists k, n = S k /\ (k = O \/ rest !! Nat.pred k = Some c).

Lemma replace_from_drop k s :
  replace_from match_at k s = replace_all match_at (drop k s).
Proof.
  revert k. induction s as [|c rest IH]; intros [|k]; try reflexivity.
  simpl. apply IH.
Qed.

Lemma replace_all_cons c rest :
  replace_all match_at (c :: rest)
  = c :: replace_all match_at (drop (advance match_at (c :: rest)) rest).
Proof.
  unfold replace_all at 1, advance. simpl.
  destruct (match_at (c :: rest)) as [[n repl]|] eqn:E.
  - destruct (match_shape _ _ _ _ E) as (-> & _ & k & -> & _).
    simpl. by rewrite replace_from_drop.
  - reflexivity.
Qed.

Lemma advance_shape c rest :
  advance match_at (c :: rest) = O
  \/ (Q c /\ rest !! Nat.pred (advance match_at (c :: rest)) = Some c).
Proof.
  unfold advance.
  destruct (match_at (c :: rest)) as [[n repl]|] eqn:E; [|by left].
  destruct (match_shape _ _ _ _ E) as (_ & HQ & k & -> & [->|Hk]); simpl.
  - by left.
  - by right.
Qed.

(** The remainder after a match is preceded, in the input, by a copy of
    the unit that is kept. *)
Lemma block_ends_with c rest t :
  drop (advance match_at (c :: rest)) rest = t ->
  exists pre, c :: rest = pre ++ c :: t.
Proof.
  intros Ht. destruct (advance_shape c rest) as [E|[_ E]].
  - rewrite E in Ht. simpl in Ht. subst. by exists [].
  - destruct (advance match_at (c :: rest)) as [|k] eqn:Ek.
    + simpl in Ht. subst. by exists [].
    + simpl in E. exists (c :: take k rest). simpl. f_equal.
      rewrite <- Ht. symmetry. by apply take_drop_middle.
Qed.

Lemma replace_all_head s : head (replace_all match_at s) = head s.
Proof. destruct s; [done|]. by rewrite replace_all_cons. Qed.

Lemma replace_all_elem x s : x ∈ replace_all match_at s -> x ∈ s.
Proof.
  remember (length s) as n eqn:Hn. revert s Hn.
  induction n as [n IH] using lt_wf_ind. intros [|c rest] Hn.
  - done.
  - rewrite replace_all_cons. intros [->|Hin]%elem_of_cons; [left|right].
    eapply (IH (length (drop (advance match_at (c :: rest)) rest))) in Hin; [|..|done].
    + rewrite <- (take_drop (advance match_at (c :: rest)) rest).
      apply elem_of_app. by right.
    + rewrite length_drop. simpl in Hn. lia.
Qed.

Lemma replace_all_length s : (length (replace_all match_at s) <= length s)%nat.
Proof.
  remember (length s) as n eqn:Hn. revert s Hn.
  induction n as [n IH] using lt_wf_ind. intros [|c rest] Hn.
  - simpl. lia.
  - rewrite replace_all_cons. simpl.
    pose proof (length_drop rest (advance match_at (c :: rest))) as Hd.
    specialize (IH (length (drop (advance match_at (c :: rest)) rest))).
    simpl in Hn. specialize (IH ltac:(lia) _ eq_refl). lia.
Qed.

Lemma replace_all_adjacent s a b :
  adjacent (replace_all match_at s) a b -> adjacent s a b.
Proof.
  remember (length s) as n eqn:Hn. revert s Hn.
  induction n as [n IH] using lt_wf_ind. intros [|c rest] Hn.
  - done.
  - rewrite replace_all_cons.
    intros [[<- Hh]|Hadj]%adjacent_cons_inv.
    + rewrite replace_all_head in Hh.
      destruct (drop (advance match_at (c :: rest)) rest) as [|b' t] eqn:Hd; [done|].
      simpl in Hh. simplify_eq.
      destruct (block_ends_with _ _ _ Hd) as [pre Hpre]. by exists pre, t.
    + eapply (IH (length (drop (advance match_at (c :: rest)) rest))) in Hadj; [|..|done].
      * rewrite <- (take_drop (advance match_at (c :: rest)) rest).
        apply (adjacent_app_r (c :: take _ rest)), Hadj.
      * rewrite length_drop. simpl in Hn. lia.
Qed.

Lemma replace_all_window3 s a b c :
  window3 (replace_all match_at s) a b c -> window3 s a b c \/ Q b.
Proof.
  remember (length s) as n eqn:Hn. revert s Hn.
  induction n as [n IH] using lt_wf_ind. intros [|x rest] Hn.
  - intros []%window3_nil.
  - rewrite replace_all_cons.
    intros [[<- [t Ht]]|Hw]%window3_cons_inv.
    + destruct (drop (advance match_at (x :: rest)) rest) as [|b' rest'] eqn:Hd; [done|].
      rewrite replace_all_cons in Ht. injection Ht as -> Ht.
      destruct (advance_shape b rest') as [E|[HQ _]]; [|by right].
      rewrite E, drop_0 in Ht.
      assert (head (replace_all match_at rest') = Some c) as Hh by by rewrite Ht.
      rewrite replace_all_head in Hh.
      destruct rest' as [|c' t']; [done|]. simpl in Hh. simplify_eq.
      destruct (block_ends_with _ _ _ Hd) as [pre Hpre]. left. by exists pre, t'.
    + eapply (IH (length (drop (advance match_at (x :: rest)) rest))) in Hw; [|..|done].
      * destruct Hw as [Hw|HQ]; [left|by right].
        rewrite <- (take_drop (advance match_at (x :: rest)) rest).
        apply (window3_app_r (x :: take _ rest)), Hw.
      * rewrite length_drop. simpl in Hn. lia.
Qed.

(** A string in which no match is longer than one unit is left as it is. *)
Lemma replace_all_fixed y :
  (forall l1 c rest, y = l1 ++ c :: rest -> advance match_at (c :: rest) = O) ->
  replace_all match_at y = y.
Proof.
  induction y as [|c rest IH]; intros H; [done|].
  rewrite replace_all_cons, (H [] c rest eq_refl), drop_0. f_equal.
  apply IH. intros l1 c' rest' ->. by apply (H (c :: l1)).
Qed.
End EngineFacts.

(** ** The three expressions have that shape *)

Lemma run_length_lookup c s i :
  (i < run_length c s)%nat -> s !! i = Some c.
Proof.
  revert i. induction s as [|d s IH]; simpl; intros i Hi; [lia|].
  destruct (Z.eqb_spec d c) as [->|]; [|lia].
  destruct i as [|i]; [done|]. simpl. apply IH. lia.
Qed.

Lemma run_length_drop_head c s :
  head (drop (run_length c s) s) <> Some c.
Proof.
  induction s as [|d s IH]; simpl; [done|].
  destruct (Z.eqb_spec d c) as [->|Hne]; simpl; [done|congruence].
Qed.

Lemma match_ws_nl_last s k :
  match_ws_nl s = Some k -> exists j, k = S j /\ s !! j = Some 0x0A.
Proof.
  revert k. induction s as [|d s IH]; simpl; intros k Hk; [done|].
  destruct (isSpace d); [|done].
  destruct (match_ws_nl s) as [k'|].
  - destruct (IH k' eq_refl) as (j & -> & Hj). simplify_eq. by exists (S j).
  - destruct (Z.eqb_spec d 0x0A) as [->|]; [|done]. simplify_eq. by exists O.
Qed.

Lemma punct_shape c rest n repl :
  match_punct_run (c :: rest) = Some (n, repl) ->
  repl = [c] /\ isRepeatPunct c = true /\
  exists k, n = S k /\ (k = O \/ rest !! Nat.pred k = Some c).
Proof.
  simpl. destruct (isRepeatPunct c) eqn:Hp; [|done].
  destruct (run_length c rest) as [|m] eqn:Hr; [done|].
  intros [= <- <-]. repeat split; [].
  exists (S m). split; [done|]. right. simpl. apply run_length_lookup. lia.
Qed.

Lemma spaces_shape c rest n repl :
  match_spaces (c :: rest) = Some (n, repl) ->
  repl = [c] /\ c = 0x20 /\
  exists k, n = S k /\ (k = O \/ rest !! Nat.pred k = Some c).
Proof.
  simpl. destruct (Z.eqb_spec c 0x20) as [->|]; [|done].
  intros [= <- <-]. repeat split; [].
  exists (run_length 0x20 rest). split; [done|].
  destruct (run_length 0x20 rest) as [|m] eqn:Hr; [by left|right].
  simpl. apply run_length_lookup. lia.
Qed.

Lemma blank_shape c rest n repl :
  match_blank_lines (c :: rest) = Some (n, repl) ->
  repl = [c] /\ c = 0x0A /\
  exists k, n = S k /\ (k = O \/ rest !! Nat.pred k = Some c).
Proof.
  simpl. destruct (Z.eqb_spec c 0x0A) as [->|]; [|done].
  destruct (match_ws_nl rest) as [k|] eqn:Hk; [|done].
  intros [= <- <-]. repeat split; [].
  exists k. split; [done|]. right.
  destruct (match_ws_nl_last _ _ Hk) as (j & -> & Hj). done.
Qed.

(** ** The scan *)

Lemma at_index_prev (pre : list Z) c rest :
  at_index (pre ++ c :: rest) (Z.of_nat (length pre) - 1) = last pre.
Proof.
  unfold at_index. destruct pre as [|p pre _] using rev_ind.
  - reflexivity.
  - rewrite length_app, last_snoc. simpl.
    destruct (Z.ltb_spec (Z.of_nat (length pre + 1) - 1) 0); [lia|].
    replace (Z.to_nat (Z.of_nat (length pre + 1) - 1)) with (length pre) by lia.
    rewrite <- app_assoc. simpl. by rewrite list_lookup_middle.
Qed.

Lemma at_index_next (pre : list Z) c rest :
  at_index (pre ++ c :: rest) (Z.of_nat (length pre) + 1) = head rest.
Proof.
  unfold at_index.
  destruct (Z.ltb_spec (Z.of_nat (length pre) + 1) 0); [lia|].
  replace (Z.to_nat (Z.of_nat (length pre) + 1)) with (length pre + 1)%nat by lia.
  rewrite lookup_app_r by lia.
  replace (length pre + 1 - length pre)%nat with 1%nat by lia.
  by destruct rest.
Qed.

Lemma skipped_middle (pre : list Z) c rest :
  skipped (pre ++ c :: rest) (length pre)
  = isSpecialSymbol c && definedChinese (last pre) && definedChinese (head rest).
Proof.
  unfold skipped. rewrite list_lookup_middle by done.
  by rewrite at_index_prev, at_index_next.
Qed.

Lemma scan_loop_from (pre l acc : list Z) :
  fold_left
    (fun result i =>
       if skipped (pre ++ l) i then result
       else match (pre ++ l) !! i with
            | Some curr => result ++ [curr]
            | None => result
            end)
    (seq (length pre) (length l)) acc
  = acc ++ scan_from (last pre) l.
Proof.
  revert pre acc. induction l as [|c rest IH]; intros pre acc; simpl.
  - by rewrite app_nil_r.
  - rewrite skipped_middle, list_lookup_middle by done.
    specialize (IH (pre ++ [c])). rewrite length_app, last_snoc in IH.
    rewrite <- app_assoc in IH. simpl in IH.
    replace (S (length pre)) with (length pre + 1)%nat by lia.
    rewrite IH.
    destruct (isSpecialSymbol c && definedChinese (last pre)
              && definedChinese (head rest)); [done|].
    by rewrite <- app_assoc.
Qed.

Lemma scanSymbols_scan_from chars : scanSymbols chars = scan_from None chars.
Proof. apply (scan_loop_from [] chars []). Qed.

Lemma hasIsolatedSymbol_window y :
  hasIsolatedSymbol y = true <->
  exists p c n, window3 y p c n /\
    isChinese p = true /\ isSpecialSymbol c = true /\ isChinese n = true.
Proof.
  split.
  - induction y as [|p t IH]; simpl; [done|].
    intros [H|H]%orb_true_iff.
    + destruct t as [|c [|n t']]; try done.
      apply andb_true_iff in H as [[Hp Hc]%andb_true_iff Hn].
      exists p, c, n. split; [by exists [], t'|done].
    + destruct (IH H) as (p' & c & n & Hw & Hcond).
      exists p', c, n. split; [|done]. apply (window3_app_r [p]), Hw.
  - intros (p & c & n & (l1 & l2 & ->) & Hp & Hc & Hn).
    induction l1 as [|x l1 IH]; simpl.
    + by rewrite Hp, Hc, Hn.
    + rewrite IH. apply orb_true_r.
Qed.

Lemma hasIsolatedSymbol_tail x y :
  hasIsolatedSymbol (x :: y) = false -> hasIsolatedSymbol y = false.
Proof. simpl. by intros [_ H]%orb_false_iff. Qed.

Lemma special_not_chinese c : isSpecialSymbol c = true -> isChinese c = false.
Proof. unfold isSpecialSymbol. by destruct (isChinese c). Qed.

Lemma scan_from_after_other c r1 r2 :
  isChinese c = false ->
  scan_from (Some c) (r1 :: r2) = r1 :: scan_from (Some r1) r2.
Proof. intros H. simpl. by rewrite H, andb_false_r. Qed.

(** The scan leaves no isolated symbol, also across its left boundary. *)
Lemma scan_from_isolated_free l : forall prev,
  hasIsolatedSymbol (with_prev prev (scan_from prev l)) = false.
Proof.
  induction l as [|c rest IH]; intros prev.
  - by destruct prev.
  - simpl scan_from.
    destruct (isSpecialSymbol c && definedChinese prev
              && definedChinese (head rest)) eqn:Hc.
    + apply andb_true_iff in Hc as [[Hs Hp]%andb_true_iff Hn].
      destruct prev as [q|]; [|done]. destruct rest as [|r1 r2]; [done|].
      simpl in Hp, Hn. apply special_not_chinese in Hs as Hcn.
      specialize (IH (Some c)). rewrite scan_from_after_other in IH |- * by done.
      apply hasIsolatedSymbol_tail in IH. simpl with_prev.
      change (hasIsolatedSymbol (q :: r1 :: scan_from (Some r1) r2))
        with (match scan_from (Some r1) r2 with
              | n :: _ => isChinese q && isSpecialSymbol r1 && isChinese n
              | [] => false
              end || hasIsolatedSymbol (r1 :: scan_from (Some r1) r2)).
      rewrite IH, orb_false_r.
      assert (isSpecialSymbol r1 = false) as ->.
      { unfold isSpecialSymbol. by rewrite Hn. }
      rewrite andb_false_r. by destruct (scan_from (Some r1) r2).
    + specialize (IH (Some c)). simpl in IH.
      destruct prev as [q|]; [|done]. simpl with_prev.
      change (hasIsolatedSymbol (q :: c :: scan_from (Some c) rest))
        with (match scan_from (Some c) rest with
              | n :: _ => isChinese q && isSpecialSymbol c && isChinese n
              | [] => false
              end || hasIsolatedSymbol (c :: scan_from (Some c) rest)).
      rewrite orb_false_iff. split; [|done].
      destruct (scan_from (Some c) rest) as [|n o] eqn:Ho; [done|].
      destruct (isChinese q) eqn:Hq; [|done].
      destruct (isSpecialSymbol c) eqn:Hs; [|done]. simpl in Hc |- *.
      destruct rest as [|r1 r2]; [done|].
      rewrite scan_from_after_other in Ho by by apply special_not_chinese.
      rewrite Hq in Hc. simpl in Hc. by simplify_eq.
Qed.

Lemma scanSymbols_isolated_free chars :
  hasIsolatedSymbol (scanSymbols chars) = false.
Proof. rewrite scanSymbols_scan_from. apply (scan_from_isolated_free chars None). Qed.

(** A string without isolated symbols passes the scan unchanged. *)
Lemma scan_from_fixed y : forall prev,
  hasIsolatedSymbol (with_prev prev y) = false -> scan_from prev y = y.
Proof.
  induction y as [|c rest IH]; intros prev H; [done|]. simpl.
  assert (hasIsolatedSymbol (c :: rest) = false) as Hc.
  { destruct prev; [by apply hasIsolatedSymbol_tail in H|done]. }
  rewrite (IH (Some c)) by done.
  destruct (isSpecialSymbol c && definedChinese prev
            && definedChinese (head rest)) eqn:E; [|done].
  apply andb_true_iff in E as [[Hs Hp]%andb_true_iff Hn].
  destruct prev as [q|]; [|done]. destruct rest as [|n t]; [done|].
  simpl in *. by rewrite Hp, Hs, Hn in H.
Qed.

Lemma scanSymbols_fixed y :
  hasIsolatedSymbol y = false -> scanSymbols y = y.
Proof. rewrite scanSymbols_scan_from. apply (scan_from_fixed y None). Qed.

Lemma scan_from_elem x l : forall prev, x ∈ scan_from prev l -> x ∈ l.
Proof.
  induction l as [|c rest IH]; intros prev; simpl; [done|].
  destruct (_ && _ && _).
  - intros H%IH. by right.
  - intros [->|H%IH]%elem_of_cons; [left|by right].
Qed.

Lemma scan_from_length l : forall prev,
  (length (scan_from prev l) <= length l)%nat.
Proof.
  induction l as [|c rest IH]; intros prev; simpl; [done|].
  specialize (IH (Some c)). destruct (_ && _ && _); simpl; lia.
Qed.

(** The scan leaves a string as it is only if it has no isolated
    symbol. *)
Lemma scan_from_fixed_inv y : forall prev,
  scan_from prev y = y -> hasIsolatedSymbol (with_prev prev y) = false.
Proof.
  induction y as [|c rest IH]; intros prev H.
  - by destruct prev.
  - simpl in H.
    destruct (isSpecialSymbol c && definedChinese prev
              && definedChinese (head rest)) eqn:E.
    + pose proof (scan_from_length rest (Some c)) as Hl.
      rewrite H in Hl. simpl in Hl. lia.
    + injection H as H. specialize (IH (Some c) H). unfold with_prev in IH.
      destruct prev as [q|]; [|done]. unfold with_prev.
      change (hasIsolatedSymbol (q :: c :: rest))
        with (match rest with
              | n :: _ => isChinese q && isSpecialSymbol c && isChinese n
              | [] => false
              end || hasIsolatedSymbol (c :: rest)).
      rewrite IH, orb_false_r. destruct rest as [|n t]; [done|].
      simpl in E. by destruct (isChinese q), (isSpecialSymbol c), (isChinese n).
Qed.

Lemma scanSymbols_fixed_iff y :
  scanSymbols y = y <-> hasIsolatedSymbol y = false.
Proof.
  rewrite scanSymbols_scan_from. split.
  - apply (scan_from_fixed_inv y None).
  - apply (scan_from_fixed y None).
Qed.

Lemma scan_from_same_length y : forall prev,
  length (scan_from prev y) = length y -> scan_from prev y = y.
Proof.
  induction y as [|c rest IH]; intros prev; simpl; [done|].
  pose proof (scan_from_length rest (Some c)) as Hl.
  destruct (_ && _ && _); simpl; intros H; [lia|].
  f_equal. apply IH. lia.
Qed.

(** A string with an isolated symbol loses at least one character in the
    scan. *)
Lemma scanSymbols_shrinks y :
  hasIsolatedSymbol y = true -> (length (scanSymbols y) < length y)%nat.
Proof.
  intros H. rewrite scanSymbols_scan_from.
  pose proof (scan_from_length y None) as Hl.
  destruct (decide (length (scan_from None y) = length y)) as [E|]; [|lia].
  apply scan_from_same_length, (scan_from_fixed_inv y None) in E.
  simpl in E. by rewrite E in H.
Qed.

(** ** Runs of one repeated unit

    [/(p)\1+/] and [/[ ]+/] both consume the whole run of copies of the
    unit they start with. *)

Section RunCollapse.
Variable match_at : jsstring -> option (nat * jsstring).
Variable Q : Z -> Prop.
Variable P : Z -> bool.

Hypothesis match_shape : forall c rest n repl,
  match_at (c :: rest) = Some (n, repl) ->
  repl = [c] /\ Q c /\
  exists k, n = S k /\ (k = O \/ rest !! Nat.pred k = Some c).
Hypothesis advance_in : forall c rest,
  P c = true -> advance match_at (c :: rest) = run_length c rest.
Hypothesis advance_out : forall c rest,
  P c = false -> advance match_at (c :: rest) = O.

Lemma run_collapse_no_run s c :
  adjacent (replace_all match_at s) c c -> P c = false.
Proof.
  remember (length s) as n eqn:Hn. revert s Hn.
  induction n as [n IH] using lt_wf_ind. intros [|x rest] Hn.
  - intros []%adjacent_nil.
  - rewrite (replace_all_cons _ Q) by done.
    intros [[<- Hh]|Hadj]%adjacent_cons_inv.
    + rewrite (replace_all_head _ Q) in Hh by done.
      destruct (P x) eqn:HP; [|done].
      rewrite advance_in in Hh by done.
      by apply run_length_drop_head in Hh.
    + eapply (IH (length (drop (advance match_at (x :: rest)) rest)));
        [|done|done].
      rewrite length_drop. simpl in Hn. lia.
Qed.

Lemma run_collapse_fixed y :
  (forall c, adjacent y c c -> P c = false) ->
  replace_all match_at y = y.
Proof.
  intros H. apply (replace_all_fixed _ Q); [done|].
  intros l1 c rest ->. destruct (P c) eqn:HP.
  - rewrite advance_in by done. destruct rest as [|d rest]; [done|].
    simpl. destruct (Z.eqb_spec d c) as [->|]; [|done].
    rewrite H in HP; [done|]. by exists l1, rest.
  - by apply advance_out.
Qed.
End RunCollapse.

Lemma punct_advance_in c rest :
  isRepeatPunct c = true ->
  advance match_punct_run (c :: rest) = run_length c rest.
Proof.
  intros H. unfold advance. simpl. rewrite H. by destruct (run_length c rest).
Qed.

Lemma punct_advance_out c rest :
  isRepeatPunct c = false -> advance match_punct_run (c :: rest) = O.
Proof. intros H. unfold advance. simpl. by rewrite H. Qed.

Lemma spaces_advance_in c rest :
  isPlainSpace c = true -> advance match_spaces (c :: rest) = run_length c rest.
Proof.
  unfold isPlainSpace. intros ->%Z.eqb_eq. reflexivity.
Qed.

Lemma spaces_advance_out c rest :
  isPlainSpace c = false -> advance match_spaces (c :: rest) = O.
Proof. unfold isPlainSpace, advance. simpl. by intros ->. Qed.

(** ** Blank lines *)

Lemma match_ws_nl_greedy s k :
  match_ws_nl s = Some k -> match_ws_nl (drop k s) = None.
Proof.
  revert k. induction s as [|d s IH]; simpl; intros k Hk; [done|].
  destruct (isSpace d); [|done].
  destruct (match_ws_nl s) as [k'|] eqn:E.
  - simplify_eq. simpl. by apply IH.
  - destruct (d =? 0x0A); [|done]. simplify_eq. by rewrite skipn_cons, drop_0.
Qed.

Lemma match_ws_nl_extend s l :
  is_Some (match_ws_nl s) -> is_Some (match_ws_nl (s ++ l)).
Proof.
  induction s as [|d s IH]; simpl; [by intros [? ?]|].
  destruct (isSpace d); [|done].
  destruct (match_ws_nl s) as [k'|] eqn:E.
  - intros _. destruct IH as [k ->]; eauto.
  - destruct (d =? 0x0A); [|done]. intros _.
    destruct (match_ws_nl (s ++ l)); eauto.
Qed.

(** [match_ws_nl] succeeds on whitespace followed by a newline. *)
Lemma match_ws_nl_complete w l :
  forallb isSpace w = true -> is_Some (match_ws_nl (w ++ 0x0A :: l)).
Proof.
  induction w as [|d w IH]; simpl.
  - intros _. destruct (match_ws_nl l); eauto.
  - intros [-> Hw]%andb_true_iff. destruct (IH Hw) as [k ->]. eauto.
Qed.

Lemma blank_advance_other c rest :
  c <> 0x0A -> advance match_blank_lines (c :: rest) = O.
Proof.
  intros H. unfold advance. simpl. by destruct (Z.eqb_spec c 0x0A).
Qed.

Lemma blank_advance_nl rest :
  match_ws_nl (drop (advance match_blank_lines (0x0A :: rest)) rest) = None.
Proof.
  unfold advance. simpl. destruct (match_ws_nl rest) as [k|] eqn:E.
  - simpl. by apply match_ws_nl_greedy.
  - done.
Qed.

Lemma collapseBlankLines_cons c rest :
  collapseBlankLines (c :: rest)
  = c :: collapseBlankLines (drop (advance match_blank_lines (c :: rest)) rest).
Proof. apply (replace_all_cons _ (fun c => c = 0x0A)), blank_shape. Qed.

Lemma match_ws_nl_collapse s :
  match_ws_nl s = None -> match_ws_nl (collapseBlankLines s) = None.
Proof.
  induction s as [|d s IH]; [done|].
  rewrite collapseBlankLines_cons. simpl.
  destruct (isSpace d); [|done].
  destruct (match_ws_nl s) eqn:E; [done|].
  destruct (Z.eqb_spec d 0x0A) as [->|Hd]; [done|]. intros _.
  rewrite blank_advance_other, drop_0 by done. by rewrite IH.
Qed.

Lemma collapseBlankLines_no_blank s : noBlankRun (collapseBlankLines s).
Proof.
  remember (length s) as n eqn:Hn. revert s Hn.
  induction n as [n IH] using lt_wf_ind. intros [|c rest] Hn l1 l2.
  - by destruct l1.
  - rewrite collapseBlankLines_cons. destruct l1 as [|x l1]; simpl.
    + intros [= -> <-]. apply match_ws_nl_collapse, blank_advance_nl.
    + intros [= -> H]. revert H.
      eapply (IH (length (drop (advance match_blank_lines (x :: rest)) rest)));
        [|done]. rewrite length_drop. simpl in Hn. lia.
Qed.

Lemma collapseBlankLines_fixed y : noBlankRun y -> collapseBlankLines y = y.
Proof.
  intros H. apply (replace_all_fixed _ (fun c => c = 0x0A)); [apply blank_shape|].
  intros l1 c rest ->. destruct (Z.eq_dec c 0x0A) as [->|Hc].
  - unfold advance. simpl. by rewrite (H l1 rest).
  - by apply blank_advance_other.
Qed.

(** ** trim *)

Lemma trimStart_suffix s : exists l, s = l ++ trimStart s.
Proof.
  induction s as [|c s [l IH]]; simpl; [by exists []|].
  destruct (isSpace c).
  - exists (c :: l). simpl. by f_equal.
  - by exists [].
Qed.

Lemma trimStart_head s c : head (trimStart s) = Some c -> isSpace c = false.
Proof.
  induction s as [|d s IH]; simpl; [done|].
  destruct (isSpace d) eqn:E; [done|]. simpl. by intros [= <-].
Qed.

Lemma trimStart_fixed s :
  (forall c, head s = Some c -> isSpace c = false) -> trimStart s = s.
Proof. destruct s as [|c s]; simpl; [done|]. intros H. by rewrite H. Qed.

Lemma trimStart_idem s : trimStart (trimStart s) = trimStart s.
Proof. apply trimStart_fixed, trimStart_head. Qed.

Lemma trimEnd_prefix s : exists l, s = trimEnd s ++ l.
Proof.
  unfold trimEnd. destruct (trimStart_suffix (rev s)) as [l H].
  exists (rev l). rewrite <- rev_app_distr, <- H. by rewrite rev_involutive.
Qed.

Lemma trim_infix s : exists l1 l2, s = l1 ++ trim s ++ l2.
Proof.
  unfold trim. destruct (trimStart_suffix s) as [l1 H1].
  destruct (trimEnd_prefix (trimStart s)) as [l2 H2].
  exists l1, l2. by rewrite <- H2.
Qed.

Lemma trim_idem s : trim (trim s) = trim s.
Proof.
  unfold trim at 1.
  assert (trimStart (trim s) = trim s) as ->.
  { apply trimStart_fixed. intros c Hc. unfold trim in Hc.
    destruct (trimEnd_prefix (trimStart s)) as [l Hl].
    apply (trimStart_head s). rewrite Hl.
    by destruct (trimEnd (trimStart s)). }
  unfold trim, trimEnd. by rewrite rev_involutive, trimStart_idem.
Qed.

Lemma trim_elem x s : x ∈ trim s -> x ∈ s.
Proof.
  destruct (trim_infix s) as (l1 & l2 & H). intros Hx. rewrite H.
  rewrite !elem_of_app. auto.
Qed.

Lemma trim_adjacent s a b : adjacent (trim s) a b -> adjacent s a b.
Proof.
  destruct (trim_infix s) as (l1 & l2 & H). intros Hx. rewrite H.
  by apply adjacent_app_r, adjacent_app_l.
Qed.

Lemma trim_window3 s a b c : window3 (trim s) a b c -> window3 s a b c.
Proof.
  destruct (trim_infix s) as (l1 & l2 & H). intros Hx. rewrite H.
  by apply window3_app_r, window3_app_l.
Qed.

Lemma trim_no_blank s : noBlankRun s -> noBlankRun (trim s).
Proof.
  destruct (trim_infix s) as (l1 & l2 & H). intros Hs a b Hab.
  specialize (Hs (l1 ++ a) (b ++ l2)).
  destruct (match_ws_nl b) eqn:E; [|done].
  destruct (match_ws_nl_extend b l2) as [k Hk]; [by rewrite E|].
  rewrite Hs in Hk; [done|].
  rewrite H, Hab, <- !app_assoc. reflexivity.
Qed.

(** ** The stages of [cleanOcrText] *)

Lemma stripNoise_elem c text : c ∈ stripNoise text -> isNoise c = false.
Proof.
  unfold stripNoise. rewrite list_elem_of_In, filter_In.
  intros [_ H]. by apply negb_true_iff.
Qed.

Lemma stripNoise_fixed y :
  (forall c, c ∈ y -> isNoise c = false) -> stripNoise y = y.
Proof.
  unfold stripNoise. induction y as [|c y IH]; intros H; simpl; [done|].
  rewrite H by left. simpl. f_equal. apply IH. intros d Hd. apply H. by right.
Qed.

Lemma collapsePunct_elem x s : x ∈ collapsePunct s -> x ∈ s.
Proof. apply (replace_all_elem _ _ punct_shape). Qed.

Lemma collapseSpaces_elem x s : x ∈ collapseSpaces s -> x ∈ s.
Proof. apply (replace_all_elem _ _ spaces_shape). Qed.

Lemma collapseBlankLines_elem x s : x ∈ collapseBlankLines s -> x ∈ s.
Proof. apply (replace_all_elem _ _ blank_shape). Qed.

Lemma collapsePunct_no_run s c :
  adjacent (collapsePunct s) c c -> isRepeatPunct c = false.
Proof.
  apply (run_collapse_no_run _ _ isRepeatPunct punct_shape), punct_advance_in.
Qed.

Lemma collapseSpaces_no_run s c :
  adjacent (collapseSpaces s) c c -> isPlainSpace c = false.
Proof.
  apply (run_collapse_no_run _ _ isPlainSpace spaces_shape), spaces_advance_in.
Qed.

Lemma cleanOcrText_unfold text :
  cleanOcrText text
  = if falsy text then [] else finish (scanSymbols (stripNoise text)).
Proof. reflexivity. Qed.

Lemma finish_elem x z : x ∈ finish z -> x ∈ z.
Proof.
  intros H%trim_elem%collapseBlankLines_elem%collapseSpaces_elem.
  by apply collapsePunct_elem.
Qed.

Lemma trim_length s : (length (trim s) <= length s)%nat.
Proof.
  destruct (trim_infix s) as (l1 & l2 & H). rewrite H at 2.
  rewrite !length_app. lia.
Qed.

Lemma finish_length z : (length (finish z) <= length z)%nat.
Proof.
  unfold finish.
  pose proof (trim_length (collapseBlankLines (collapseSpaces (collapsePunct z)))).
  pose proof (replace_all_length _ _ blank_shape (collapseSpaces (collapsePunct z))).
  pose proof (replace_all_length _ _ spaces_shape (collapsePunct z)).
  pose proof (replace_all_length _ _ punct_shape z).
  unfold collapseBlankLines, collapseSpaces, collapsePunct in *. lia.
Qed.

Lemma finish_no_punct_run z c :
  adjacent (finish z) c c -> isRepeatPunct c = false.
Proof.
  intros H%trim_adjacent.
  apply (replace_all_adjacent _ _ blank_shape) in H.
  apply (replace_all_adjacent _ _ spaces_shape) in H.
  by apply collapsePunct_no_run in H.
Qed.

Lemma finish_no_space_run z c :
  adjacent (finish z) c c -> isPlainSpace c = false.
Proof.
  intros H%trim_adjacent.
  apply (replace_all_adjacent _ _ blank_shape) in H.
  by apply collapseSpaces_no_run in H.
Qed.

Lemma finish_no_blank z : noBlankRun (finish z).
Proof. apply trim_no_blank, collapseBlankLines_no_blank. Qed.

Lemma finish_window3 z p c n :
  window3 (finish z) p c n ->
  window3 z p c n \/ isRepeatPunct c = true \/ isSpace c = true.
Proof.
  intros H%trim_window3.
  apply (replace_all_window3 _ _ blank_shape) in H as [H| ->]; [|by right; right].
  apply (replace_all_window3 _ _ spaces_shape) in H as [H| ->]; [|by right; right].
  apply (replace_all_window3 _ _ punct_shape) in H as [H|H]; auto.
Qed.

Lemma finish_fixed z : finish (finish z) = finish z.
Proof.
  unfold finish at 1.
  rewrite (run_collapse_fixed _ _ isRepeatPunct punct_shape
             punct_advance_in punct_advance_out)
    by apply finish_no_punct_run.
  rewrite (run_collapse_fixed _ _ isPlainSpace spaces_shape
             spaces_advance_in spaces_advance_out)
    by apply finish_no_space_run.
  rewrite collapseBlankLines_fixed by apply finish_no_blank.
  apply trim_idem.
Qed.

Lemma cleanOcrText_no_noise text c :
  c ∈ cleanOcrText text -> isNoise c = false.
Proof.
  rewrite cleanOcrText_unfold. destruct (falsy text); [by intros ?%elem_of_nil|].
  intros H%finish_elem. rewrite scanSymbols_scan_from in H.
  by apply scan_from_elem, stripNoise_elem in H.
Qed.

(** ** The claims on [cleanOcrText] *)

Lemma special_repeat_punct c :
  isSpecialSymbol c = true -> isRepeatPunct c = true ->
  c = 0x21 \/ c = 0x2C \/ c = 0x2E.
Proof.
  unfold isRepeatPunct, memZ. simpl. intros Hs.
  repeat match goal with
         | |- context [c =? ?k] =>
           destruct (Z.eqb_spec c k) as [->|_];
           [first [by auto | by vm_compute in Hs]|]
         end.
  done.
Qed.

Lemma space_not_special c : isSpace c = true -> isSpecialSymbol c = false.
Proof.
  unfold isSpecialSymbol. intros ->. by rewrite !orb_true_r.
Qed.

Lemma noBlankRun_words y l1 w l2 :
  noBlankRun y -> y = l1 ++ 0x0A :: w ++ 0x0A :: l2 -> forallb isSpace w = false.
Proof.
  intros Hy Heq. destruct (forallb isSpace w) eqn:E; [|done].
  destruct (match_ws_nl_complete w l2 E) as [k Hk].
  by rewrite (Hy l1 _ Heq) in Hk.
Qed.

Lemma noBlankRun_nil : noBlankRun [].
Proof. intros l1 l2 H. by destruct l1. Qed.

Lemma finish_scan_output z :
  hasIsolatedSymbol z = false -> CleanedOutput (finish z).
Proof.
  intros Hz. split.
  - intros p c n Hw Hp Hn Hc.
    apply finish_window3 in Hw as [Hw|[Hr|Hs]].
    + assert (hasIsolatedSymbol z = true) as E; [|by rewrite E in Hz].
      apply hasIsolatedSymbol_window. by exists p, c, n.
    + by apply special_repeat_punct.
    + apply space_not_special in Hs. by rewrite Hs in Hc.
  - intros c Hc Hadj. apply finish_no_punct_run in Hadj. by rewrite Hadj in Hc.
  - by intros ?%finish_no_space_run.
  - intros l1 w l2. apply noBlankRun_words, finish_no_blank.
Qed.

(** C3 (as amended): for every input string the output of [cleanOcrText]
    has no run of two or more copies of a mark of the repeatable set, no
    run of two or more plain spaces and no two newlines separated by
    whitespace only; a special symbol that stands directly between two
    Chinese characters of the output is one of the half-width marks
    [!], [,], [.]. *)
Theorem cleanOcrText_output_invariant (text : jsstring) :
  CleanedOutput (cleanOcrText text).
Proof.
  rewrite cleanOcrText_unfold. destruct (falsy text).
  - split.
    + by intros p c n []%window3_nil.
    + by intros c _ []%adjacent_nil.
    + by intros []%adjacent_nil.
    + intros l1 w l2 H. by destruct l1.
  - apply finish_scan_output, scanSymbols_isolated_free.
Qed.

(** C3 (as stated) fails: collapsing [!!] between two Chinese characters
    leaves one isolated [!]. *)
Lemma cleanOcrText_isolated_symbol_remains :
  cleanOcrText (js "這!!是") = js "這!是" /\
  ~ CleanedText (cleanOcrText (js "這!!是")).
Proof.
  split; [reflexivity|]. intros [H _ _ _].
  specialize (H 0x9019 0x21 0x662F). discriminate H; [|reflexivity..].
  by exists [], [].
Qed.

(** C2 (as amended): cleaning the text produced by [cleanOcrText] again
    leaves it unchanged exactly when that text has no special symbol
    directly between two Chinese characters; the text produced never
    contains a denylisted character. *)
Theorem cleanOcrText_idempotent_on_clean (x : jsstring) :
  (forall c, c ∈ cleanOcrText x -> isNoise c = false) /\
  (hasIsolatedSymbol (cleanOcrText x) = false <->
   cleanOcrText (cleanOcrText x) = cleanOcrText x).
Proof.
  split; [apply cleanOcrText_no_noise|].
  rewrite (cleanOcrText_unfold (cleanOcrText x)).
  destruct (falsy (cleanOcrText x)) eqn:F.
  { by destruct (cleanOcrText x). }
  rewrite stripNoise_fixed by apply cleanOcrText_no_noise.
  split.
  - intros Hiso. rewrite scanSymbols_fixed by done.
    rewrite cleanOcrText_unfold. destruct (falsy x); [done|].
    apply finish_fixed.
  - intros Heq. destruct (hasIsolatedSymbol (cleanOcrText x)) eqn:Hiso; [|done].
    apply scanSymbols_shrinks in Hiso.
    pose proof (finish_length (scanSymbols (cleanOcrText x))) as Hl.
    rewrite Heq in Hl. lia.
Qed.

Lemma cleanOcrText_idempotent_on_clean_witness :
  hasIsolatedSymbol (cleanOcrText (js "太好了!!!!")) = false /\
  cleanOcrText (cleanOcrText (js "太好了!!!!")) = cleanOcrText (js "太好了!!!!").
Proof.
  split; [reflexivity|].
  apply (proj2 (cleanOcrText_idempotent_on_clean (js "太好了!!!!"))).
  reflexivity.
Defined.

(** C2 (as stated) fails: the first pass turns [!!] between two Chinese
    characters into an isolated [!], which the second pass drops. *)
Lemma cleanOcrText_not_idempotent :
  cleanOcrText (js "這!!是") = js "這!是" /\
  cleanOcrText (cleanOcrText (js "這!!是")) = js "這是" /\
  cleanOcrText (cleanOcrText (js "這!!是")) <> cleanOcrText (js "這!!是").
Proof. repeat split. discriminate. Qed.

(** The other examples of the specification. *)
Example cleanOcrText_examples :
  cleanOcrText (js "A|B\C_D") = js "ABCD" /\
  cleanOcrText (js "太好了!!!!") = js "太好了!" /\
  cleanOcrText (js "a    b" ++ [0x0A; 0x0A; 0x0A] ++ js "c")
  = js "a b" ++ [0x0A] ++ js "c" /\
  cleanOcrText (js "  這 $ 是一 $ 個  ") = js "這 $ 是一 $ 個" /\
  cleanOcrText (js "") = js "".
Proof. repeat split. Qed.

(** C7 (as amended): the spaces left by the removed symbols are collapsed
    to single spaces, not removed. *)
Theorem cleanOcrText_end_to_end :
  cleanOcrText (js "今 | 天_天 ^ 氣 真 好!!!") = js "今 天天 氣 真 好!".
Proof. reflexivity. Qed.

(** C7 (as stated) fails. *)
Lemma cleanOcrText_end_to_end_keeps_spaces :
  cleanOcrText (js "今 | 天_天 ^ 氣 真 好!!!") <> js "今天天氣真好!".
Proof. discriminate. Qed.

Lemma scan_loop_pushed (chars : list Z) (idx : list nat) (acc : list Z) :
  fold_left
    (fun result i =>
       if skipped chars i then result
       else match chars !! i with
            | Some curr => result ++ [curr]
            | None => result
            end)
    idx acc
  = acc ++ omap (pushed chars) idx.
Proof.
  revert acc. induction idx as [|i idx IH]; intros acc; simpl.
  - by rewrite app_nil_r.
  - rewrite IH. unfold pushed at 2.
    destruct (skipped chars i); [done|].
    destruct (chars !! i); [|done]. by rewrite <- app_assoc.
Qed.

(** The class tested by the code is the specified one minus the
    half-width question mark. *)
Lemma isSpecialSymbol_droppable c :
  isSpecialSymbol c = droppable_spec c && negb (c =? 0x3F).
Proof.
  unfold isSpecialSymbol, droppable_spec, keptPunctuation,
    fullWidthPunctuation, memZ. simpl.
  destruct (isChinese c), (isAlnum c), (isSpace c); simpl; try reflexivity.
  rewrite !negb_orb. simpl.
  repeat match goal with
         | |- context [c =? ?k] => destruct (c =? k); simpl; try reflexivity
         end.
Qed.

(** C4 (as amended): the scan pushes exactly the characters at which the
    loop does not [continue]; a character that is not Chinese, not a Latin
    letter or digit, not whitespace, not in the listed full-width
    punctuation and not the half-width question mark, and whose two
    neighbours are Chinese characters, is dropped; the two examples. *)
Theorem scan_drops_isolated_symbols :
  (forall chars : list Z,
     scanSymbols chars = omap (pushed chars) (seq 0 (length chars))) /\
  (forall (chars : list Z) (i : nat) (curr p n : Z),
     chars !! i = Some curr ->
     at_index chars (Z.of_nat i - 1) = Some p ->
     at_index chars (Z.of_nat i + 1) = Some n ->
     droppable_spec curr = true ->
     curr <> 0x3F ->
     isChinese p = true ->
     isChinese n = true ->
     skipped chars i = true /\ pushed chars i = None) /\
  cleanOcrText (js "這$是一$個") = js "這是一個" /\
  cleanOcrText (js "這, 是") = js "這, 是".
Proof.
  split; [|split; [|split; reflexivity]].
  - intros chars. apply (scan_loop_pushed chars _ []).
  - intros chars i curr p n Hc Hp Hn Hd Hq Hcp Hcn.
    assert (skipped chars i = true) as Hs.
    { unfold skipped. rewrite Hc, Hp, Hn. simpl.
      rewrite isSpecialSymbol_droppable, Hd, Hcp, Hcn.
      by destruct (Z.eqb_spec curr 0x3F). }
    split; [done|]. unfold pushed. by rewrite Hs.
Qed.

Lemma scan_drops_isolated_symbols_witness :
  skipped (js "這$是") 1 = true /\ pushed (js "這$是") 1 = None.
Proof.
  apply (proj1 (proj2 scan_drops_isolated_symbols)
           (js "這$是") 1%nat 0x24 0x9019 0x662F);
    first [reflexivity | discriminate].
Defined.

(** C4 (as stated) fails: the half-width question mark meets the four
    conditions of the specification, stands between two Chinese
    characters, and is pushed to the result. *)
Lemma scan_keeps_half_width_question_mark :
  js "這?是" !! 1%nat = Some 0x3F /\
  at_index (js "這?是") 0 = Some 0x9019 /\
  at_index (js "這?是") 2 = Some 0x662F /\
  droppable_spec 0x3F = true /\
  isChinese 0x9019 = true /\ isChinese 0x662F = true /\
  skipped (js "這?是") 1 = false /\
  pushed (js "這?是") 1 = Some 0x3F /\
  cleanOcrText (js "這?是") = js "這?是".
Proof. repeat split. Qed.

(** ** The similarity score *)

Lemma memZ_elem x l : memZ x l = true <-> x ∈ l.
Proof.
  unfold memZ. rewrite existsb_exists. split.
  - intros (y & Hy & ->%Z.eqb_eq). by apply list_elem_of_In.
  - intros H. exists x. split; [by apply list_elem_of_In|apply Z.eqb_refl].
Qed.

Lemma JsSet_add_elem s x y : y ∈ JsSet.add s x <-> y ∈ s \/ y = x.
Proof.
  unfold JsSet.add, JsSet.has. destruct (memZ x s) eqn:E.
  - apply memZ_elem in E. split; [by left|]. by intros [?| ->].
  - rewrite elem_of_app, list_elem_of_singleton. done.
Qed.

Lemma JsSet_add_NoDup s x : NoDup s -> NoDup (JsSet.add s x).
Proof.
  intros H. unfold JsSet.add, JsSet.has. destruct (memZ x s) eqn:E; [done|].
  apply NoDup_app. split; [done|]. split; [|apply NoDup_singleton].
  intros y Hy ->%list_elem_of_singleton.
  apply memZ_elem in Hy. by rewrite Hy in E.
Qed.

Lemma JsSet_fold_elem l : forall acc y,
  y ∈ fold_left JsSet.add l acc <-> y ∈ acc \/ y ∈ l.
Proof.
  induction l as [|x l IH]; intros acc y; simpl.
  - split; [by left|]. by intros [?|?%elem_of_nil].
  - rewrite IH, JsSet_add_elem, elem_of_cons. tauto.
Qed.

Lemma JsSet_fold_NoDup l : forall acc,
  NoDup acc -> NoDup (fold_left JsSet.add l acc).
Proof.
  induction l as [|x l IH]; intros acc H; simpl; [done|].
  by apply IH, JsSet_add_NoDup.
Qed.

Lemma JsSet_of_list_elem l y : y ∈ JsSet.of_list l <-> y ∈ l.
Proof.
  unfold JsSet.of_list. rewrite JsSet_fold_elem.
  split; [by intros [?%elem_of_nil|?]|by right].
Qed.

Lemma JsSet_of_list_NoDup l : NoDup (JsSet.of_list l).
Proof. apply JsSet_fold_NoDup, NoDup_nil_2. Qed.

(** The size of a [Set] built from [l] is the cardinal of any finite set
    with the elements of [l]. *)
Lemma JsSet_of_list_size l (X : gset Z) :
  (forall x, x ∈ l <-> x ∈ X) -> JsSet.size (JsSet.of_list l) = size X.
Proof.
  intros H. unfold JsSet.size.
  rewrite <- (size_list_to_set (C:=gset Z)) by apply JsSet_of_list_NoDup.
  f_equal. apply set_eq. intros x.
  by rewrite elem_of_list_to_set, JsSet_of_list_elem.
Qed.

Lemma similarity_general s1 s2 :
  falsy s1 || falsy s2 = false -> str_eqb s1 s2 = false ->
  calculateSimilarity s1 s2 = jaccard (charset s1) (charset s2).
Proof.
  intros H1 H2. unfold calculateSimilarity, jaccard. rewrite H1, H2.
  cbv zeta. f_equal; do 3 f_equal; apply JsSet_of_list_size; intros x.
  - rewrite list_elem_of_In, filter_In, <- list_elem_of_In.
    unfold JsSet.has. rewrite memZ_elem, !JsSet_of_list_elem.
    unfold charset. by rewrite elem_of_intersection, !elem_of_list_to_set.
  - rewrite elem_of_app, !JsSet_of_list_elem.
    unfold charset. by rewrite elem_of_union, !elem_of_list_to_set.
Qed.

Lemma falsy_nil s : falsy s = true <-> s = [].
Proof. by destruct s. Qed.

Lemma falsy_either s1 s2 : falsy s1 || falsy s2 = true <-> s1 = [] \/ s2 = [].
Proof. by rewrite orb_true_iff, !falsy_nil. Qed.

Lemma similarity_refines s1 s2 :
  calculateSimilarity s1 s2 = similarity_spec s1 s2.
Proof.
  unfold similarity_spec.
  destruct (decide (s1 = [] \/ s2 = [])) as [He|He].
  - apply falsy_either in He. unfold calculateSimilarity. by rewrite He.
  - assert (falsy s1 || falsy s2 = false) as Hf.
    { apply not_true_is_false. by rewrite falsy_either. }
    destruct (decide (s1 = s2)) as [->|Hne].
    + unfold calculateSimilarity, str_eqb. rewrite Hf.
      by rewrite bool_decide_eq_true_2.
    + apply similarity_general; [done|]. by apply bool_decide_eq_false_2.
Qed.

Lemma charset_size_pos s : s <> [] -> size (charset s) <> O.
Proof.
  destruct s as [|c s]; [done|]. intros _ H%size_empty_iff.
  apply (not_elem_of_empty (C:=gset Z) c), (H c).
  unfold charset. rewrite elem_of_list_to_set. by left.
Qed.

Lemma jaccard_self A : size A <> O -> (jaccard A A == 1)%Q.
Proof.
  intros H. unfold jaccard.
  rewrite (idemp_L (∩) A), (idemp_L (∪) A).
  apply Qmult_inv_r. unfold Qeq. simpl. lia.
Qed.

Lemma jaccard_comm A B : jaccard A B = jaccard B A.
Proof. unfold jaccard. by rewrite (comm_L (∩) A B), (comm_L (∪) A B). Qed.

Lemma similarity_comm a b : calculateSimilarity a b = calculateSimilarity b a.
Proof.
  rewrite !similarity_refines. unfold similarity_spec.
  destruct (decide (a = [] \/ b = [])), (decide (b = [] \/ a = []));
    try tauto.
  destruct (decide (a = b)), (decide (b = a)); try congruence.
  apply jaccard_comm.
Qed.

(** C5: the score is 0 when either string is empty, otherwise 1 when the
    strings are identical, otherwise the Jaccard index of their sets of
    unique characters; for non-empty strings it always equals that index,
    so the shortcut for identical strings agrees with it; the three
    examples; symmetry. *)
Theorem similarity_is_jaccard :
  (forall s1 s2, calculateSimilarity s1 s2 = similarity_spec s1 s2) /\
  (forall s1 s2, s1 <> [] -> s2 <> [] ->
     (calculateSimilarity s1 s2 == jaccard (charset s1) (charset s2))%Q) /\
  (calculateSimilarity (js "abc") (js "abc") == 1)%Q /\
  (calculateSimilarity (js "") (js "x") == 0)%Q /\
  (calculateSimilarity (js "abc") (js "xyz") == 0)%Q /\
  (forall a b, calculateSimilarity a b = calculateSimilarity b a).
Proof.
  split; [apply similarity_refines|].
  split; [|repeat split; apply similarity_comm].
  intros s1 s2 H1 H2. rewrite similarity_refines. unfold similarity_spec.
  destruct (decide (s1 = [] \/ s2 = [])); [tauto|].
  destruct (decide (s1 = s2)) as [->|]; [|reflexivity].
  symmetry. by apply jaccard_self, charset_size_pos.
Qed.

Lemma similarity_is_jaccard_witness :
  (calculateSimilarity (js "abc") (js "abd")
   == jaccard (charset (js "abc")) (charset (js "abd")))%Q.
Proof.
  apply (proj1 (proj2 similarity_is_jaccard) (js "abc") (js "abd"));
    discriminate.
Defined.

(** ** The speech gate *)

Lemma starts_with_app pat l : starts_with pat (pat ++ l) = true.
Proof.
  induction pat as [|p pat IH]; simpl; [by destruct l|].
  by rewrite Z.eqb_refl.
Qed.

Lemma includes_unfold s pat :
  includes s pat
  = starts_with pat s
    || match s with [] => false | _ :: s' => includes s' pat end.
Proof. by destruct s. Qed.

Lemma includes_app s pat l1 l2 : s = l1 ++ pat ++ l2 -> includes s pat = true.
Proof.
  intros ->. induction l1 as [|x l1 IH].
  - rewrite includes_unfold. simpl app. by rewrite starts_with_app.
  - rewrite includes_unfold.
    change (starts_with pat ((x :: l1) ++ pat ++ l2)
            || includes (l1 ++ pat ++ l2) pat = true).
    rewrite IH. apply orb_true_r.
Qed.

Lemma starts_with_inv pat s :
  starts_with pat s = true -> exists l, s = pat ++ l.
Proof.
  revert s. induction pat as [|p pat IH]; intros s; simpl.
  - intros _. by exists s.
  - destruct s as [|c s]; [done|].
    intros [->%Z.eqb_eq [l ->]%IH]%andb_true_iff. by exists l.
Qed.

Lemma includes_inv s pat :
  includes s pat = true -> exists l1 l2, s = l1 ++ pat ++ l2.
Proof.
  induction s as [|c s IH].
  - simpl. rewrite orb_false_r. intros [l ->]%starts_with_inv. by exists [], l.
  - simpl. intros [[l Hl]%starts_with_inv|H]%orb_true_iff.
    + exists [], l. by rewrite Hl.
    + destruct (IH H) as (l1 & l2 & ->). by exists (c :: l1), l2.
Qed.

Lemma playTTS_unspeakable st text force :
  unspeakable text = true -> playTTS st text force = (st, []).
Proof. unfold unspeakable, playTTS. by intros ->. Qed.

Lemma playTTS_speakable st text force :
  unspeakable text = false ->
  playTTS st text force
  = if isSmartSpeech st && isSpeaking st && negb force
       && Qle_bool (1 # 4) (calculateSimilarity text (currentSpeakingText st))
    then (st, [])
    else (fst (stopAllSpeech st), [Cancel; Speak text (speechRate st)]).
Proof.
  unfold unspeakable, playTTS. intros ->.
  by destruct (isSmartSpeech st && isSpeaking st && negb force), (Qle_bool _ _).
Qed.

Lemma unspeakable_false text :
  text <> [] -> text <> noText ->
  includes text inProgress = false -> includes text failed = false ->
  unspeakable text = false.
Proof.
  intros H1 H2 H3 H4. unfold unspeakable, str_eqb. rewrite H3, H4.
  rewrite bool_decide_eq_false_2 by done. by destruct text.
Qed.

(** C10: whatever [force] is, [playTTS] returns without any call on the
    synthesizer, and without touching the state, for a text that is empty,
    is exactly the no-text sentinel, or contains one of the two
    placeholder substrings anywhere. *)
Theorem playTTS_refuses_placeholders (st : Speech) (text : jsstring) (force : bool) :
  text = [] \/ text = noText \/
  (exists l1 l2, text = l1 ++ inProgress ++ l2) \/
  (exists l1 l2, text = l1 ++ failed ++ l2) ->
  playTTS st text force = (st, []) /\ shouldSpeak st text force = false.
Proof.
  intros H. assert (unspeakable text = true) as Hu.
  { unfold unspeakable.
    destruct H as [->|[->|[(l1 & l2 & H)|(l1 & l2 & H)]]]; [done|done|..].
    - rewrite (includes_app _ _ _ _ H). by rewrite orb_true_r.
    - rewrite (includes_app _ _ _ _ H). by rewrite !orb_true_r. }
  unfold shouldSpeak. by rewrite playTTS_unspeakable.
Qed.

Lemma playTTS_refuses_placeholders_witness :
  playTTS speaking_state (js "考卷辨識失敗率") true = (speaking_state, []) /\
  shouldSpeak speaking_state (js "考卷辨識失敗率") true = false.
Proof.
  apply (playTTS_refuses_placeholders speaking_state (js "考卷辨識失敗率") true).
  right; right; right. exists (js "考卷"), (js "率"). reflexivity.
Defined.

Lemma shouldSpeak_speakable st text force :
  unspeakable text = false ->
  shouldSpeak st text force
  = negb (isSmartSpeech st && isSpeaking st && negb force
          && Qle_bool (1 # 4)
               (calculateSimilarity text (currentSpeakingText st))).
Proof.
  intros H. unfold shouldSpeak. rewrite playTTS_speakable by done.
  by destruct (_ && _ && _ && _).
Qed.

(** C1 (as amended): with [force] set, [playTTS] starts playback of every
    text that is not empty, is not the no-text sentinel and contains
    neither placeholder substring, whatever is being spoken: it cancels
    the current speech and speaks the text. *)
Theorem playTTS_force_speaks (st : Speech) (text : jsstring) :
  text <> [] -> text <> noText ->
  includes text inProgress = false -> includes text failed = false ->
  shouldSpeak st text true = true /\
  playTTS st text true
  = (fst (stopAllSpeech st), [Cancel; Speak text (speechRate st)]).
Proof.
  intros H1 H2 H3 H4. pose proof (unspeakable_false _ H1 H2 H3 H4) as Hu.
  rewrite shouldSpeak_speakable, playTTS_speakable by done.
  simpl negb. by rewrite andb_false_r.
Qed.

Lemma playTTS_force_speaks_witness :
  shouldSpeak speaking_state (js "今天天氣很好") true = true /\
  playTTS speaking_state (js "今天天氣很好") true
  = (fst (stopAllSpeech speaking_state),
     [Cancel; Speak (js "今天天氣很好") (speechRate speaking_state)]).
Proof.
  apply (playTTS_force_speaks speaking_state (js "今天天氣很好"));
    first [discriminate | reflexivity].
Defined.

(** C1 (as stated) fails: the guard on the text comes before the test of
    [force]. *)
Lemma playTTS_force_does_not_speak_placeholders :
  shouldSpeak speaking_state (js "") true = false /\
  shouldSpeak speaking_state (js "無文字") true = false /\
  shouldSpeak speaking_state (js "正在辨識中...") true = false /\
  shouldSpeak speaking_state (js "本地辨識失敗: 引擎未響應") true = false.
Proof. repeat split. Qed.

(** C6 (as amended): for a text that is not empty, is not the no-text
    sentinel and contains neither placeholder substring: with smart
    suppression on, playback active and [force] unset, [playTTS] declines
    exactly when the similarity with the text being spoken is at least
    0.25; with smart suppression off it always starts playback. *)
Theorem playTTS_suppression (st : Speech) (text : jsstring) :
  text <> [] -> text <> noText ->
  includes text inProgress = false -> includes text failed = false ->
  (isSmartSpeech st = true -> isSpeaking st = true ->
   (shouldSpeak st text false = false <->
    (1 # 4 <= calculateSimilarity text (currentSpeakingText st))%Q)) /\
  (isSmartSpeech st = false -> forall force, shouldSpeak st text force = true).
Proof.
  intros H1 H2 H3 H4. pose proof (unspeakable_false _ H1 H2 H3 H4) as Hu.
  split.
  - intros Hs Hp. rewrite shouldSpeak_speakable, Hs, Hp by done. simpl.
    rewrite negb_false_iff. apply Qle_bool_iff.
  - intros Hs force. rewrite shouldSpeak_speakable, Hs by done. done.
Qed.

Lemma playTTS_suppression_witness :
  (shouldSpeak speaking_state (js "今天天氣真好") false = false <->
   (1 # 4 <= calculateSimilarity (js "今天天氣真好")
               (currentSpeakingText speaking_state))%Q) /\
  (forall force, shouldSpeak quiet_state (js "今天天氣真好") force = true).
Proof.
  split.
  - apply (proj1 (playTTS_suppression speaking_state (js "今天天氣真好")
                    ltac:(discriminate) ltac:(discriminate)
                    eq_refl eq_refl)); reflexivity.
  - apply (proj2 (playTTS_suppression quiet_state (js "今天天氣真好")
                    ltac:(discriminate) ltac:(discriminate)
                    eq_refl eq_refl)); reflexivity.
Defined.

(** The suppression examples of the specification. *)
Example playTTS_suppression_examples :
  shouldSpeak speaking_state (js "今天天氣真好") false = false /\
  shouldSpeak speaking_state (js "明日有雨") false = true /\
  shouldSpeak speaking_state (js "今天天氣真好") true = true.
Proof. repeat split. Qed.

(** C6 (as stated) fails on a placeholder: it is neither empty nor the
    sentinel, yet it is declined with smart suppression off, and declined
    with smart suppression on although its similarity is below 0.25. *)
Lemma playTTS_declines_placeholder :
  js "正在辨識中..." <> [] /\ js "正在辨識中..." <> noText /\
  isSmartSpeech quiet_state = false /\
  shouldSpeak quiet_state (js "正在辨識中...") false = false /\
  isSmartSpeech speaking_state = true /\ isSpeaking speaking_state = true /\
  shouldSpeak speaking_state (js "正在辨識中...") false = false /\
  ~ (1 # 4 <= calculateSimilarity (js "正在辨識中...")
                (currentSpeakingText speaking_state))%Q.
Proof.
  repeat split; try discriminate. intros H. by vm_compute in H.
Qed.

(** ** The contrast loop *)

Module ImageFacts.
Import Image.

Lemma pixel_length data i : length (pixel data i) = length data.
Proof. unfold pixel. by rewrite !length_insert. Qed.

Lemma pixel_other data i pos :
  pos <> i -> pos <> (i + 1)%nat -> pos <> (i + 2)%nat ->
  pixel data i !! pos = data !! pos.
Proof.
  intros H0 H1 H2. unfold pixel. by rewrite !list_lookup_insert_ne.
Qed.

Lemma pixel_at data i r g b :
  data !! i = Some r -> data !! (i + 1)%nat = Some g ->
  data !! (i + 2)%nat = Some b ->
  let v :=
    ToUint8Clamp
      (contrast (Some ((inject_Z r + inject_Z g + inject_Z b) / 3)%Q)) in
  pixel data i !! i = Some v /\ pixel data i !! (i + 1)%nat = Some v
  /\ pixel data i !! (i + 2)%nat = Some v.
Proof.
  intros Hr Hg Hb v. unfold pixel, read. rewrite Hr, Hg, Hb. simpl.
  apply lookup_lt_Some in Hr, Hg, Hb.
  repeat split.
  - rewrite !list_lookup_insert_ne by lia.
    apply list_lookup_insert_eq. lia.
  - rewrite list_lookup_insert_ne by lia.
    apply list_lookup_insert_eq. rewrite length_insert. lia.
  - apply list_lookup_insert_eq. rewrite !length_insert. lia.
Qed.

Lemma fold_pixel_length idx : forall data,
  length (fold_left pixel idx data) = length data.
Proof.
  induction idx as [|j idx IH]; intros data; simpl; [done|].
  by rewrite IH, pixel_length.
Qed.

Lemma fold_pixel_other idx pos : forall data,
  (forall j, j ∈ idx -> pos <> j /\ pos <> (j + 1)%nat /\ pos <> (j + 2)%nat) ->
  fold_left pixel idx data !! pos = data !! pos.
Proof.
  induction idx as [|j idx IH]; intros data H; simpl; [done|].
  rewrite IH by (intros j' Hj'; apply H; by right).
  destruct (H j) as (? & ? & ?); [by left|]. by apply pixel_other.
Qed.

Lemma pixel_starts_elem len j :
  j ∈ pixel_starts len <-> (j < len)%nat /\ exists q, j = (4 * q)%nat.
Proof.
  unfold pixel_starts. rewrite list_elem_of_In, filter_In, in_seq, Nat.eqb_eq.
  split.
  - intros [[_ Hlt] Hm]. split; [done|]. exists (j / 4)%nat.
    pose proof (Nat.div_mod_eq j 4). lia.
  - intros [Hlt [q ->]]. split; [lia|].
    rewrite Nat.mul_comm. apply Nat.Div0.mod_mul.
Qed.

Lemma pixel_starts_NoDup len : NoDup (pixel_starts len).
Proof.
  unfold pixel_starts. apply NoDup_ListNoDup, List.NoDup_filter.
  apply NoDup_ListNoDup, NoDup_seq.
Qed.

Lemma Qlt_bool_iff a b : Qlt_bool a b = true <-> (a < b)%Q.
Proof.
  unfold Qlt_bool. rewrite negb_true_iff, <- not_true_iff_false, Qle_bool_iff.
  split; [apply Qnot_le_lt|apply Qlt_not_le].
Qed.

(** Outside the pixel that starts at [i], the whole loop changes nothing
    as long as the other starts are multiples of 4. *)
Lemma fold_pixel_apart idx k pos data :
  (forall j, j ∈ idx -> (exists q, j = (4 * q)%nat) /\ j <> (4 * k)%nat) ->
  (4 * k <= pos < 4 * k + 4)%nat ->
  fold_left pixel idx data !! pos = data !! pos.
Proof.
  intros H Hpos. apply fold_pixel_other. intros j Hj.
  destruct (H j Hj) as [[q ->] Hne]. lia.
Qed.

(** The loop on one pixel of the buffer. *)
Lemma contrastPixels_pixel (data : list Z) (k : nat) (r g b a : Z) :
  data !! (4 * k)%nat = Some r ->
  data !! (4 * k + 1)%nat = Some g ->
  data !! (4 * k + 2)%nat = Some b ->
  data !! (4 * k + 3)%nat = Some a ->
  let v :=
    ToUint8Clamp
      (contrast (Some ((inject_Z r + inject_Z g + inject_Z b) / 3)%Q)) in
  contrastPixels data !! (4 * k)%nat = Some v /\
  contrastPixels data !! (4 * k + 1)%nat = Some v /\
  contrastPixels data !! (4 * k + 2)%nat = Some v /\
  contrastPixels data !! (4 * k + 3)%nat = Some a /\
  length (contrastPixels data) = length data.
Proof.
  intros Hr Hg Hb Ha v.
  assert ((4 * k)%nat ∈ pixel_starts (length data)) as Hin.
  { apply pixel_starts_elem. apply lookup_lt_Some in Hr. eauto. }
  destruct (list_elem_of_split _ _ Hin) as (l1 & l2 & Hsplit).
  pose proof (pixel_starts_NoDup (length data)) as Hnd.
  rewrite Hsplit in Hnd. apply NoDup_app in Hnd as (_ & Hl1 & Hnd).
  apply NoDup_cons in Hnd as [Hl2 _].
  assert (forall j, j ∈ l1 -> (exists q, j = (4 * q)%nat) /\ j <> (4 * k)%nat) as A1.
  { intros j Hj. split.
    - apply (pixel_starts_elem (length data)). rewrite Hsplit.
      apply elem_of_app. by left.
    - intros ->. apply (Hl1 _ Hj). by left. }
  assert (forall j, j ∈ l2 -> (exists q, j = (4 * q)%nat) /\ j <> (4 * k)%nat) as A2.
  { intros j Hj. split.
    - apply (pixel_starts_elem (length data)). rewrite Hsplit.
      apply elem_of_app. right. by right.
    - by intros ->. }
  unfold contrastPixels. rewrite Hsplit, fold_left_app. cbn [fold_left].
  set (d1 := fold_left pixel l1 data).
  assert (forall pos, (4 * k <= pos < 4 * k + 4)%nat -> d1 !! pos = data !! pos)
    as Hd1 by (intros pos Hpos; by apply fold_pixel_apart with k).
  destruct (pixel_at d1 (4 * k)%nat r g b) as (V0 & V1 & V2);
    [rewrite Hd1 by lia; done..|].
  rewrite !(fold_pixel_apart l2 k) by (done || lia).
  rewrite V0, V1, V2, pixel_other, Hd1, Ha by lia.
  rewrite fold_pixel_length, pixel_length. unfold d1.
  by rewrite fold_pixel_length.
Qed.

(** C8: for every pixel of the buffer, with [avg] the unweighted average
    of its three colour channels, the loop stores in all three channels
    the single value [max(0, avg - 40)] when [avg < 120] and
    [min(255, avg + 40)] otherwise (converted as every store into a
    clamped byte array is), and leaves the alpha channel as it was. *)
Theorem contrast_transform (data : list Z) (k : nat) (r g b a : Z) :
  data !! (4 * k)%nat = Some r ->
  data !! (4 * k + 1)%nat = Some g ->
  data !! (4 * k + 2)%nat = Some b ->
  data !! (4 * k + 3)%nat = Some a ->
  let avg := ((inject_Z r + inject_Z g + inject_Z b) / 3)%Q in
  exists color : Q,
    ((avg < 120)%Q -> color = Qmax 0 (avg - 40)) /\
    ((120 <= avg)%Q -> color = Qmin 255 (avg + 40)) /\
    contrastPixels data !! (4 * k)%nat = Some (ToUint8Clamp (Some color)) /\
    contrastPixels data !! (4 * k + 1)%nat = Some (ToUint8Clamp (Some color)) /\
    contrastPixels data !! (4 * k + 2)%nat = Some (ToUint8Clamp (Some color)) /\
    contrastPixels data !! (4 * k + 3)%nat = Some a /\
    length (contrastPixels data) = length data.
Proof.
  intros Hr Hg Hb Ha avg.
  exists (if Qlt_bool avg 120 then Qmax 0 (avg - 40) else Qmin 255 (avg + 40)).
  split.
  { intros H%Qlt_bool_iff. by rewrite H. }
  split.
  { intros H. destruct (Qlt_bool avg 120) eqn:E; [|done].
    apply Qlt_bool_iff in E. by apply Qlt_not_le in E. }
  apply (contrastPixels_pixel data k r g b a Hr Hg Hb Ha).
Qed.

Lemma contrast_transform_witness :
  let avg := ((inject_Z 90 + inject_Z 100 + inject_Z 110) / 3)%Q in
  exists color : Q,
    ((avg < 120)%Q -> color = Qmax 0 (avg - 40)) /\
    ((120 <= avg)%Q -> color = Qmin 255 (avg + 40)) /\
    contrastPixels [90; 100; 110; 255] !! (4 * 0)%nat
    = Some (ToUint8Clamp (Some color)) /\
    contrastPixels [90; 100; 110; 255] !! (4 * 0 + 1)%nat
    = Some (ToUint8Clamp (Some color)) /\
    contrastPixels [90; 100; 110; 255] !! (4 * 0 + 2)%nat
    = Some (ToUint8Clamp (Some color)) /\
    contrastPixels [90; 100; 110; 255] !! (4 * 0 + 3)%nat = Some 255 /\
    length (contrastPixels [90; 100; 110; 255]) = length [90; 100; 110; 255].
Proof.
  apply (contrast_transform [90; 100; 110; 255] 0 90 100 110 255);
    reflexivity.
Defined.

(** Two pixels: a dark one and a light one, with the alpha bytes kept. *)
Example contrastPixels_example :
  contrastPixels [90; 100; 110; 255; 200; 230; 250; 128]
  = [60; 60; 60; 255; 255; 255; 255; 128].
Proof. reflexivity. Qed.

Example contrastPixels_rounds :
  contrastPixels [100; 100; 101; 7; 120; 120; 121; 9]
  = [60; 60; 60; 7; 160; 160; 160; 9].
Proof. reflexivity. Qed.

Lemma average_of_bytes r g b :
  ((inject_Z r + inject_Z g + inject_Z b) / 3)%Q = (r + g + b) # 3.
Proof.
  unfold Qdiv, Qmult, Qplus, Qinv, inject_Z. simpl. f_equal. lia.
Qed.

Lemma stored_byte_table :
  forallb
    (fun n =>
       ToUint8Clamp (contrast (Some (Z.of_nat n # 3))) =? stored_byte (Z.of_nat n))
    (seq 0 766) = true.
Proof. vm_compute. reflexivity. Qed.

Lemma stored_byte_correct r g b :
  0 <= r <= 255 -> 0 <= g <= 255 -> 0 <= b <= 255 ->
  ToUint8Clamp (contrast (Some ((inject_Z r + inject_Z g + inject_Z b) / 3)%Q))
  = stored_byte (r + g + b).
Proof.
  intros Hr Hg Hb. rewrite average_of_bytes.
  pose proof stored_byte_table as T. rewrite forallb_forall in T.
  specialize (T (Z.to_nat (r + g + b))). rewrite Z2Nat.id in T by lia.
  apply Z.eqb_eq, T, in_seq. lia.
Qed.

(** On a buffer of bytes the three colour channels of every pixel receive
    [stored_byte] of their sum. *)
Lemma contrastPixels_bytes (data : list Z) (k : nat) (r g b a : Z) :
  data !! (4 * k)%nat = Some r ->
  data !! (4 * k + 1)%nat = Some g ->
  data !! (4 * k + 2)%nat = Some b ->
  data !! (4 * k + 3)%nat = Some a ->
  0 <= r <= 255 -> 0 <= g <= 255 -> 0 <= b <= 255 ->
  contrastPixels data !! (4 * k)%nat = Some (stored_byte (r + g + b)) /\
  contrastPixels data !! (4 * k + 1)%nat = Some (stored_byte (r + g + b)) /\
  contrastPixels data !! (4 * k + 2)%nat = Some (stored_byte (r + g + b)) /\
  contrastPixels data !! (4 * k + 3)%nat = Some a.
Proof.
  intros Hr Hg Hb Ha Br Bg Bb.
  destruct (contrastPixels_pixel data k r g b a Hr Hg Hb Ha) as (V0 & V1 & V2 & V3 & _).
  rewrite stored_byte_correct in V0, V1, V2 by done. done.
Qed.

End ImageFacts.

(** ** The errors of performGeminiOCR *)

Module GeminiFacts.
Import Gemini.

Lemma strip_prefix_app pat l : strip_prefix pat (pat ++ l) = Some l.
Proof.
  induction pat as [|p pat IH]; simpl; [by destruct l|].
  by rewrite Z.eqb_refl.
Qed.

Lemma strip_prefix_inv pat : forall s r,
  strip_prefix pat s = Some r -> s = pat ++ r.
Proof.
  induction pat as [|p pat IH]; intros s r; simpl.
  - destruct s; by intros [= ->].
  - destruct s as [|c s]; [done|].
    destruct (Z.eqb_spec p c) as [->|]; [|done].
    intros H%IH. by rewrite H.
Qed.

Lemma span_inv f s : forall a b,
  span f s = (a, b) ->
  s = a ++ b /\ forallb f a = true /\
  match b with c :: _ => f c = false | [] => True end.
Proof.
  induction s as [|c s IH]; intros a b; simpl.
  - by intros [= <- <-].
  - destruct (f c) eqn:Hc.
    + destruct (span f s) as [a' b'] eqn:E. intros [= <- <-].
      destruct (IH a' b' eq_refl) as (-> & Ha & Hb).
      repeat split; [|done]. simpl. by rewrite Hc.
    + intros [= <- <-]. by repeat split.
Qed.

Lemma span_app f a b :
  forallb f a = true ->
  match b with c :: _ => f c = false | [] => True end ->
  span f (a ++ b) = (a, b).
Proof.
  intros Ha Hb. induction a as [|c a IH]; simpl.
  - destruct b as [|c b]; [done|]. simpl. by rewrite Hb.
  - simpl in Ha. apply andb_true_iff in Ha as [-> Ha]. by rewrite IH.
Qed.

Lemma falsy_false s : falsy s = false <-> s <> [].
Proof. by destruct s. Qed.

(** How [matchDataUrl] succeeds, for the class [f] of the characters of
    the subtype. *)
Lemma matchDataUrl_inv s m p :
  matchDataUrl s = Some (m, p) ->
  exists w, s = js "data:image/" ++ w ++ js ";base64," ++ p /\
    m = js "image/" ++ w /\ w <> [] /\ forallb isWord w = true /\
    p <> [] /\ forallb isDot p = true.
Proof.
  unfold matchDataUrl.
  destruct (strip_prefix (js "data:image/") s) as [rest|] eqn:E1; [|done].
  destruct (span isWord rest) as [w rest'] eqn:E2.
  destruct (falsy w) eqn:E3; [done|].
  destruct (strip_prefix (js ";base64,") rest') as [payload|] eqn:E4; [|done].
  destruct (negb (falsy payload) && forallb isDot payload) eqn:E5; [|done].
  intros [= <- <-]. exists w.
  apply strip_prefix_inv in E1, E4. apply span_inv in E2 as (E2 & Hw & _).
  apply andb_true_iff in E5 as [E5 E6].
  apply negb_true_iff, falsy_false in E5. apply falsy_false in E3.
  subst. done.
Qed.

Lemma matchDataUrl_build w p :
  w <> [] -> forallb isWord w = true -> p <> [] -> forallb isDot p = true ->
  matchDataUrl (js "data:image/" ++ w ++ js ";base64," ++ p)
  = Some (js "image/" ++ w, p).
Proof.
  intros Hw Hww Hp Hpd. unfold matchDataUrl.
  rewrite strip_prefix_app, span_app by done.
  apply falsy_false in Hw, Hp. rewrite Hw, strip_prefix_app, Hp, Hpd. done.
Qed.

Example matchDataUrl_jpeg :
  matchDataUrl (js "data:image/jpeg;base64,/9j/4AAQSkZJRg")
  = Some (js "image/jpeg", js "/9j/4AAQSkZJRg").
Proof. reflexivity. Qed.

Example secondField_example :
  secondField (js "data:,AAAA,BBBB") = Some (js "AAAA").
Proof. reflexivity. Qed.

Lemma generic_not_rateLimited u : genericPrefix ++ u <> rateLimited.
Proof.
  intros H. apply (f_equal (take 2)) in H. vm_compute in H. discriminate.
Qed.

Lemma generic_not_incompatibleImage u : genericPrefix ++ u <> incompatibleImage.
Proof.
  intros H. apply (f_equal (take 1)) in H. vm_compute in H. discriminate.
Qed.

Lemma messageIncludes_mentions e pat :
  messageIncludes e pat = true <-> mentions e pat.
Proof.
  unfold messageIncludes, mentions. destruct (message e) as [m|]; split.
  - intros (l1 & l2 & H)%includes_inv. by exists m, l1, l2.
  - intros (m' & l1 & l2 & [= <-] & H). by apply (includes_app _ _ l1 l2).
  - done.
  - by intros (m' & l1 & l2 & H & _).
Qed.

Lemma messageIncludes_not e pat :
  ~ mentions e pat -> messageIncludes e pat = false.
Proof.
  intros H. destruct (messageIncludes e pat) eqn:E; [|done].
  by apply messageIncludes_mentions in E.
Qed.

Lemma messageOr_cases e d :
  messageOr e d = match message e with Some (c :: m) => c :: m | _ => d end.
Proof. unfold messageOr. by destruct (message e) as [[|c m]|]. Qed.

Lemma surfaced apiKey service image cause :
  attempt apiKey service image = Throw cause ->
  performGeminiOCR apiKey service image = Throw (handler cause).
Proof. unfold performGeminiOCR. by intros ->. Qed.

(** C9: a failure of the cloud backend is surfaced, and in one of exactly
    three forms.  Whenever the body of [performGeminiOCR] fails -- as it
    does when the service rejects a well-formed image -- the call fails,
    with the rate-limit message when the message of the cause contains
    [429]; otherwise with the incompatible-image message, which asks for
    a new photograph, when it contains [INVALID_ARGUMENT] or [MIME type];
    otherwise with the generic prefix followed by the message of the cause
    (or by a default when it has none or an empty one).  The call fails in
    no other case and with no other message, and the three never
    coincide. *)
Theorem error_categories :
  (forall apiKey service image cause,
     attempt apiKey service image = Throw cause ->
     (mentions cause (js "429") ->
      performGeminiOCR apiKey service image = Throw (Error rateLimited)) /\
     (~ mentions cause (js "429") ->
      mentions cause (js "INVALID_ARGUMENT") \/ mentions cause (js "MIME type") ->
      performGeminiOCR apiKey service image = Throw (Error incompatibleImage)) /\
     (~ mentions cause (js "429") ->
      ~ mentions cause (js "INVALID_ARGUMENT") ->
      ~ mentions cause (js "MIME type") ->
      performGeminiOCR apiKey service image
      = Throw (Error (genericPrefix ++
                      match message cause with
                      | Some (c :: m) => c :: m
                      | _ => unknownError
                      end)))) /\
  (forall apiKey service w p e,
     apiKey <> [] -> w <> [] -> forallb isWord w = true ->
     forallb isDot p = true -> (10 <= length p)%nat ->
     service (js "image/" ++ w) p = Throw e ->
     attempt apiKey service (js "data:image/" ++ w ++ js ";base64," ++ p)
     = Throw e) /\
  (forall apiKey service image t,
     performGeminiOCR apiKey service image = Return t <->
     attempt apiKey service image = Return t) /\
  (forall apiKey service image e,
     performGeminiOCR apiKey service image = Throw e ->
     e = Error rateLimited \/ e = Error incompatibleImage \/
     exists u, e = Error (genericPrefix ++ u)) /\
  (exists l1 l2, incompatibleImage = l1 ++ js "重新拍照" ++ l2) /\
  rateLimited <> incompatibleImage /\
  (forall u, genericPrefix ++ u <> rateLimited) /\
  (forall u, genericPrefix ++ u <> incompatibleImage).
Proof.
  split.
  { intros apiKey service image cause H. rewrite (surfaced _ _ _ _ H).
    unfold handler. repeat split.
    - intros H1%messageIncludes_mentions. by rewrite H1.
    - intros H1%messageIncludes_not H2. rewrite H1.
      destruct H2 as [H2%messageIncludes_mentions|H2%messageIncludes_mentions];
        rewrite H2; [done|by rewrite orb_true_r].
    - intros H1%messageIncludes_not H2%messageIncludes_not
        H3%messageIncludes_not.
      by rewrite H1, H2, H3, messageOr_cases. }
  split.
  { intros apiKey service w p e Hk Hw Hww Hpd Hp He. unfold attempt.
    assert (p <> []) as Hne by (intros ->; simpl in Hp; lia).
    rewrite matchDataUrl_build by done.
    apply falsy_false in Hk, Hne. rewrite Hk, Hne.
    destruct (Nat.ltb_spec (length p) 10); [lia|].
    cbn [orb]. by rewrite He. }
  split.
  { intros apiKey service image t. unfold performGeminiOCR.
    destruct (attempt apiKey service image); split; congruence. }
  split.
  { intros apiKey service image e. unfold performGeminiOCR.
    destruct (attempt apiKey service image) as [t|cause]; [done|].
    intros [= <-]. unfold handler.
    destruct (messageIncludes cause (js "429")); [by left|].
    destruct (_ || _); [by right; left|]. right; right. by eexists. }
  split; [by exists (js "影像格式不相容或數據受損，請嘗試"), (js "。")|].
  split; [discriminate|].
  split; [apply generic_not_rateLimited|apply generic_not_incompatibleImage].
Qed.

Lemma error_categories_witness :
  performGeminiOCR (js "key")
    (fun _ _ => Throw (Error (js "429 Too Many Requests"))) sampleImage
  = Throw (Error rateLimited) /\
  performGeminiOCR (js "key")
    (fun _ _ => Throw (Error (js "400 INVALID_ARGUMENT"))) sampleImage
  = Throw (Error incompatibleImage) /\
  performGeminiOCR (js "key")
    (fun _ _ => Throw (Error (js "fetch failed"))) sampleImage
  = Throw (Error (genericPrefix ++ js "fetch failed")).
Proof.
  pose proof error_categories as (Hsurf & Hfail & _).
  assert (forall e,
    attempt (js "key") (fun _ _ => Throw e) sampleImage = Throw e) as Hthrown.
  { intros e.
    apply (Hfail (js "key") (fun _ _ => Throw e) (js "jpeg")
             (js "/9j/4AAQSkZJRgABAQ") e);
      first [discriminate | reflexivity | vm_compute; lia]. }
  split; [|split].
  - apply (proj1 (Hsurf _ _ _ _ (Hthrown (Error (js "429 Too Many Requests"))))).
    by exists (js "429 Too Many Requests"), [], (js " Too Many Requests").
  - apply (proj1 (proj2 (Hsurf _ _ _ _
                           (Hthrown (Error (js "400 INVALID_ARGUMENT")))))).
    + rewrite <- messageIncludes_mentions. vm_compute. discriminate.
    + left. by exists (js "400 INVALID_ARGUMENT"), (js "400 "), [].
  - apply (proj2 (proj2 (Hsurf _ _ _ _ (Hthrown (Error (js "fetch failed"))))));
      rewrite <- messageIncludes_mentions; vm_compute; discriminate.
Defined.

(** The two errors raised inside the [try] block itself are caught by the
    same handler and leave with the generic prefix. *)
Example local_errors_are_generic :
  performGeminiOCR (js "") (fun _ _ => Return None) sampleImage
  = Throw (Error (js "AI 辨識異常: API Key 未設定")) /\
  performGeminiOCR (js "key") (fun _ _ => Return None) (js "data:,abc")
  = Throw (Error (js "AI 辨識異常: 影像數據格式錯誤，請重新拍攝。")).
Proof. split; reflexivity. Qed.

Example empty_response_is_sentinel :
  performGeminiOCR (js "key") (fun _ _ => Return (Some (js "  "))) sampleImage
  = Return noText.
Proof. reflexivity. Qed.

End GeminiFacts.

(** * Further properties of the code *)

#[local] Set Warnings "-clear-no-such-hyp".

(** ** cleanOcrText only deletes *)

Section EngineSublist.
Variable match_at : jsstring -> option (nat * jsstring).
Variable Q : Z -> Prop.

Hypothesis match_shape : forall c rest n repl,
  match_at (c :: rest) = Some (n, repl) ->
  repl = [c] /\ Q c /\
  exists k, n = S k /\ (k = O \/ rest !! Nat.pred k = Some c).

Lemma replace_all_sublist s : replace_all match_at s `sublist_of` s.
Proof.
  remember (length s) as n eqn:Hn. revert s Hn.
  induction n as [n IH] using lt_wf_ind. intros [|c rest] Hn.
  - constructor.
  - rewrite (replace_all_cons _ Q) by done. apply sublist_skip.
    etrans; [|apply sublist_drop].
    eapply (IH (length (drop (advance match_at (c :: rest)) rest))); [|done].
    rewrite length_drop. simpl in Hn. lia.
Qed.
End EngineSublist.

Lemma stripNoise_sublist text : stripNoise text `sublist_of` text.
Proof.
  unfold stripNoise. induction text as [|c text IH]; simpl; [constructor|].
  destruct (negb (isNoise c)); by constructor.
Qed.

Lemma scan_from_sublist l : forall prev, scan_from prev l `sublist_of` l.
Proof.
  induction l as [|c rest IH]; intros prev; simpl; [constructor|].
  destruct (_ && _ && _); by constructor.
Qed.

Lemma trim_sublist s : trim s `sublist_of` s.
Proof.
  destruct (trim_infix s) as (l1 & l2 & H). rewrite H at 2.
  apply sublist_inserts_l, sublist_inserts_r. done.
Qed.

Lemma finish_sublist z : finish z `sublist_of` z.
Proof.
  unfold finish. etrans; [apply trim_sublist|].
  etrans; [apply (replace_all_sublist _ _ blank_shape)|].
  etrans; [apply (replace_all_sublist _ _ spaces_shape)|].
  apply (replace_all_sublist _ _ punct_shape).
Qed.

(** X1: the cleaned text is obtained from the input by deleting
    characters: nothing is added, replaced or moved. *)
Theorem cleanOcrText_only_deletes (text : jsstring) :
  cleanOcrText text `sublist_of` text /\
  (length (cleanOcrText text) <= length text)%nat.
Proof.
  assert (cleanOcrText text `sublist_of` text) as H.
  { rewrite cleanOcrText_unfold. destruct (falsy text).
    - apply sublist_nil_l.
    - etrans; [apply finish_sublist|]. rewrite scanSymbols_scan_from.
      etrans; [apply scan_from_sublist|]. apply stripNoise_sublist. }
  split; [done|]. by apply sublist_length.
Qed.

(** ** cleanOcrText trims *)

Lemma last_rev (l : list Z) : last (rev l) = head l.
Proof. destruct l as [|x l]; [done|]. simpl. apply last_snoc. Qed.

Lemma head_rev (l : list Z) : head (rev l) = last l.
Proof. by rewrite <- (rev_involutive l) at 2; rewrite last_rev. Qed.

Lemma trimEnd_last s c : last (trimEnd s) = Some c -> isSpace c = false.
Proof.
  unfold trimEnd. rewrite last_rev. apply trimStart_head.
Qed.

Lemma trim_head s c : head (trim s) = Some c -> isSpace c = false.
Proof.
  unfold trim. intros Hc.
  destruct (trimEnd_prefix (trimStart s)) as [l Hl].
  apply (trimStart_head s). rewrite Hl.
  by destruct (trimEnd (trimStart s)).
Qed.

Lemma trim_last s c : last (trim s) = Some c -> isSpace c = false.
Proof. apply trimEnd_last. Qed.

(** A string that neither starts nor ends with whitespace is left as it
    is by [trim]. *)
Lemma trim_fixed s :
  (forall c, head s = Some c -> isSpace c = false) ->
  (forall c, last s = Some c -> isSpace c = false) ->
  trim s = s.
Proof.
  intros Hh Hl. unfold trim. rewrite trimStart_fixed by done.
  unfold trimEnd. rewrite trimStart_fixed; [apply rev_involutive|].
  intros c. rewrite head_rev. apply Hl.
Qed.

Lemma cleanOcrText_edges (text : jsstring) :
  (forall c, head (cleanOcrText text) = Some c -> isSpace c = false) /\
  (forall c, last (cleanOcrText text) = Some c -> isSpace c = false).
Proof.
  rewrite cleanOcrText_unfold. destruct (falsy text); [done|].
  split; intros c; [apply trim_head|apply trim_last].
Qed.

(** X2: the cleaned text neither starts nor ends with a whitespace
    character, so trimming it again changes nothing. *)
Theorem cleanOcrText_trimmed (text : jsstring) :
  (forall c, head (cleanOcrText text) = Some c -> isSpace c = false) /\
  (forall c, last (cleanOcrText text) = Some c -> isSpace c = false) /\
  trim (cleanOcrText text) = cleanOcrText text.
Proof.
  destruct (cleanOcrText_edges text) as [Hh Hl].
  repeat split; [done|done|]. by apply trim_fixed.
Qed.

(** ** Tidy text *)

Lemma tidy_finish_fixed y : Tidy y -> finish y = y.
Proof.
  intros [_ Hp Hs Hb Hh Hl]. unfold finish.
  assert (collapsePunct y = y) as ->.
  { by apply (run_collapse_fixed _ _ isRepeatPunct punct_shape
                punct_advance_in punct_advance_out). }
  assert (collapseSpaces y = y) as ->.
  { by apply (run_collapse_fixed _ _ isPlainSpace spaces_shape
                spaces_advance_in spaces_advance_out). }
  rewrite collapseBlankLines_fixed by done. by apply trim_fixed.
Qed.

Lemma tidy_clean_fixed y :
  Tidy y -> hasIsolatedSymbol y = false -> cleanOcrText y = y.
Proof.
  intros Ht Hi. rewrite cleanOcrText_unfold.
  destruct (falsy y) eqn:F; [by destruct y|].
  rewrite stripNoise_fixed by apply Ht.
  rewrite scanSymbols_fixed by done. by apply tidy_finish_fixed.
Qed.

Lemma tidy_nil : Tidy [].
Proof.
  split.
  - by intros c ?%elem_of_nil.
  - by intros c []%adjacent_nil.
  - by intros c []%adjacent_nil.
  - intros l1 l2 H. by destruct l1.
  - done.
  - done.
Qed.

Lemma cleanOcrText_tidy x : Tidy (cleanOcrText x).
Proof.
  destruct (falsy x) eqn:F.
  { rewrite cleanOcrText_unfold, F. apply tidy_nil. }
  split.
  - apply cleanOcrText_no_noise.
  - rewrite cleanOcrText_unfold, F. apply finish_no_punct_run.
  - rewrite cleanOcrText_unfold, F. apply finish_no_space_run.
  - rewrite cleanOcrText_unfold, F. apply finish_no_blank.
  - apply cleanOcrText_edges.
  - apply cleanOcrText_edges.
Qed.

(** ** The scan keeps text tidy *)

Lemma chinese_not_special c : isChinese c = true -> isSpecialSymbol c = false.
Proof. unfold isSpecialSymbol. by intros ->. Qed.

Lemma chinese_not_space c : isChinese c = true -> isSpace c = false.
Proof.
  unfold isChinese. rewrite andb_true_iff, !Z.leb_le. intros H.
  apply not_true_is_false. unfold isSpace.
  rewrite !orb_true_iff, !andb_true_iff, !Z.leb_le, !Z.eqb_eq. lia.
Qed.

Lemma chinese_not_punct c : isChinese c = true -> isRepeatPunct c = false.
Proof.
  unfold isChinese. rewrite andb_true_iff, !Z.leb_le. intros H.
  apply not_true_is_false. unfold isRepeatPunct, memZ. simpl.
  rewrite !orb_true_iff, !Z.eqb_eq. lia.
Qed.

Lemma scan_from_adjacent y : forall prev a b,
  adjacent (scan_from prev y) a b ->
  adjacent y a b \/ (isChinese a = true /\ isChinese b = true).
Proof.
  induction y as [|c r IH]; intros prev a b; simpl.
  { by intros []%adjacent_nil. }
  destruct (isSpecialSymbol c && definedChinese prev
            && definedChinese (head r)) eqn:E.
  - intros [H|H]%IH; [left|by right]. by apply (adjacent_app_r [c]).
  - intros [[<- Hh]|H]%adjacent_cons_inv.
    + destruct r as [|d r']; [done|]. simpl in Hh.
      destruct (isSpecialSymbol d && isChinese c && definedChinese (head r'))
        eqn:Ed.
      * apply andb_true_iff in Ed as [[Hd Hc]%andb_true_iff Hn].
        destruct r' as [|n r'']; [done|]. simpl in Hn.
        rewrite scan_from_after_other in Hh by by apply special_not_chinese.
        simpl in Hh. simplify_eq. by right.
      * simpl in Hh. simplify_eq. left. by exists [], r'.
    + apply IH in H as [H|H]; [left|by right]. by apply (adjacent_app_r [c]).
Qed.

Lemma scan_from_ws_nl y : forall prev,
  match_ws_nl (scan_from prev y) = match_ws_nl y.
Proof.
  induction y as [|c r IH]; intros prev; [done|]. simpl.
  destruct (isSpace c) eqn:Hc.
  - rewrite (space_not_special c Hc). simpl. by rewrite Hc, IH.
  - destruct (isSpecialSymbol c && definedChinese prev
              && definedChinese (head r)) eqn:E; [|simpl; by rewrite Hc].
    apply andb_true_iff in E as [[Hs _]%andb_true_iff Hn].
    destruct r as [|n r']; [done|]. simpl in Hn.
    rewrite scan_from_after_other by by apply special_not_chinese.
    simpl. by rewrite (chinese_not_space n Hn).
Qed.

Lemma scan_from_blank y : forall prev l1 l2,
  (forall k1 k2, y = k1 ++ 0x0A :: k2 -> match_ws_nl k2 = None) ->
  scan_from prev y = l1 ++ 0x0A :: l2 -> match_ws_nl l2 = None.
Proof.
  induction y as [|c r IH]; intros prev l1 l2 Hy; simpl.
  { by destruct l1. }
  assert (forall k1 k2, r = k1 ++ 0x0A :: k2 -> match_ws_nl k2 = None) as Hr.
  { intros k1 k2 ->. by apply (Hy (c :: k1)). }
  destruct (_ && _ && _).
  - by apply IH.
  - destruct l1 as [|x l1]; simpl.
    + intros [= -> <-]. rewrite scan_from_ws_nl. by apply (Hy []).
    + intros [= -> H]. by apply IH in H.
Qed.

Lemma scan_from_cons prev c r :
  scan_from prev (c :: r)
  = if isSpecialSymbol c && definedChinese prev && definedChinese (head r)
    then scan_from (Some c) r
    else c :: scan_from (Some c) r.
Proof. reflexivity. Qed.

Lemma scan_from_last y : forall prev, last (scan_from prev y) = last y.
Proof.
  induction y as [|c r IH]; intros prev; [done|].
  destruct r as [|d r'].
  { simpl. by rewrite andb_false_r. }
  rewrite last_cons_cons, scan_from_cons.
  destruct (_ && _ && _); [apply IH|].
  rewrite last_cons, IH. by destruct (last_is_Some (d :: r')) as [_ [? ->]].
Qed.

Lemma scan_from_head y : head (scan_from None y) = head y.
Proof. destruct y as [|c r]; [done|]. simpl. by rewrite andb_false_r. Qed.

Lemma scanSymbols_tidy y : Tidy y -> Tidy (scanSymbols y).
Proof.
  intros [Hn Hp Hs Hb Hh Hl]. rewrite scanSymbols_scan_from. split.
  - intros c Hc%scan_from_elem. by apply Hn.
  - intros c [H|[H _]]%scan_from_adjacent; [by apply Hp|].
    by apply chinese_not_punct.
  - intros c [H|[H _]]%scan_from_adjacent; [by apply Hs|].
    destruct (Z.eqb_spec c 0x20) as [->|]; done.
  - intros l1 l2. by apply scan_from_blank.
  - intros c. rewrite scan_from_head. apply Hh.
  - intros c. rewrite scan_from_last. apply Hl.
Qed.

(** X3: cleaning stabilises with the second pass: the second pass only
    removes the isolated symbols that the first one left, and every
    further pass changes nothing. *)
Theorem cleanOcrText_stable_after_two (x : jsstring) :
  cleanOcrText (cleanOcrText x) = scanSymbols (cleanOcrText x) /\
  cleanOcrText (cleanOcrText (cleanOcrText x)) = cleanOcrText (cleanOcrText x).
Proof.
  pose proof (cleanOcrText_tidy x) as Ht.
  assert (cleanOcrText (cleanOcrText x) = scanSymbols (cleanOcrText x)) as H2.
  { rewrite (cleanOcrText_unfold (cleanOcrText x)).
    destruct (falsy (cleanOcrText x)) eqn:F.
    { by destruct (cleanOcrText x). }
    rewrite stripNoise_fixed by apply Ht.
    by apply tidy_finish_fixed, scanSymbols_tidy. }
  split; [done|]. rewrite H2.
  apply tidy_clean_fixed; [by apply scanSymbols_tidy|].
  apply scanSymbols_isolated_free.
Qed.

(** ** Plain text *)

Lemma plain_range c :
  isPlain c = true ->
  0x4E00 <= c <= 0x9FA5 \/ 0x61 <= c <= 0x7A \/ 0x41 <= c <= 0x5A
  \/ 0x30 <= c <= 0x39.
Proof.
  unfold isPlain, isChinese, isAlnum.
  rewrite !orb_true_iff, !andb_true_iff, !Z.leb_le. tauto.
Qed.

Lemma plain_not_noise c : isPlain c = true -> isNoise c = false.
Proof.
  intros H%plain_range. apply not_true_is_false. unfold isNoise, memZ. simpl.
  rewrite !orb_true_iff, !Z.eqb_eq. lia.
Qed.

Lemma plain_not_punct c : isPlain c = true -> isRepeatPunct c = false.
Proof.
  intros H%plain_range. apply not_true_is_false.
  unfold isRepeatPunct, memZ. simpl. rewrite !orb_true_iff, !Z.eqb_eq. lia.
Qed.

Lemma plain_not_space c : isPlain c = true -> isSpace c = false.
Proof.
  intros H%plain_range. apply not_true_is_false. unfold isSpace.
  rewrite !orb_true_iff, !andb_true_iff, !Z.leb_le, !Z.eqb_eq. lia.
Qed.

Lemma plain_not_special c : isPlain c = true -> isSpecialSymbol c = false.
Proof.
  unfold isPlain, isSpecialSymbol.
  by destruct (isChinese c), (isAlnum c).
Qed.

Lemma adjacent_elem (y : list Z) a b : adjacent y a b -> a ∈ y.
Proof.
  intros (l1 & l2 & ->). apply elem_of_app. right. by left.
Qed.

Lemma plain_no_isolated y :
  Forall (fun c => isPlain c = true) y -> hasIsolatedSymbol y = false.
Proof.
  induction 1 as [|p t Hp Ht IH]; [done|]. simpl. rewrite IH, orb_false_r.
  destruct t as [|c [|n t']]; try done.
  apply Forall_cons in Ht as [Hc _].
  by rewrite (plain_not_special c Hc), andb_false_r.
Qed.

Lemma plain_tidy y : Forall (fun c => isPlain c = true) y -> Tidy y.
Proof.
  intros H. rewrite Forall_forall in H. split.
  - intros c Hc. by apply plain_not_noise, H.
  - intros c Hc%adjacent_elem. by apply plain_not_punct, H.
  - intros c Hc%adjacent_elem. apply H, plain_not_space in Hc.
    by destruct (Z.eqb_spec c 0x20) as [->|].
  - intros l1 l2 ->.
    assert (isSpace 0x0A = false) as E; [|done].
    apply plain_not_space, H, elem_of_app. right. by left.
  - intros c Hc. apply plain_not_space, H.
    destruct y; simplify_eq/=. by left.
  - intros c [l' ->]%last_Some. apply plain_not_space, H, elem_of_app.
    right. by left.
Qed.

(** X4: a text made only of Chinese characters, Latin letters and digits
    is returned unchanged. *)
Theorem cleanOcrText_plain_unchanged (text : jsstring) :
  Forall (fun c => isPlain c = true) text -> cleanOcrText text = text.
Proof.
  intros H. apply tidy_clean_fixed; [by apply plain_tidy|].
  by apply plain_no_isolated.
Qed.

Lemma cleanOcrText_plain_unchanged_witness :
  cleanOcrText (js "第3頁OCR辨識結果") = js "第3頁OCR辨識結果".
Proof.
  apply (cleanOcrText_plain_unchanged (js "第3頁OCR辨識結果")).
  repeat constructor.
Defined.

(** ** The range of the similarity score *)

Lemma ratio_facts (i u : nat) :
  (i <= u)%nat -> (0 < u)%nat ->
  let q := (inject_Z (Z.of_nat i) / inject_Z (Z.of_nat u))%Q in
  (0 <= q <= 1)%Q /\ ((q == 1)%Q <-> i = u) /\ ((q == 0)%Q <-> i = O).
Proof.
  intros Hle Hu. destruct u as [|n]; [lia|].
  unfold Qdiv, Qmult, Qinv, Qle, Qeq, inject_Z. simpl.
  repeat split; lia.
Qed.

Lemma jaccard_sizes (A B : gset Z) : (size (A ∩ B) <= size (A ∪ B))%nat.
Proof. apply subseteq_size. set_solver. Qed.

Lemma union_size_pos (A B : gset Z) : size A <> O -> (0 < size (A ∪ B))%nat.
Proof.
  intros H. assert (size A <= size (A ∪ B))%nat; [|lia].
  apply subseteq_size. set_solver.
Qed.

Lemma jaccard_facts (A B : gset Z) :
  size A <> O ->
  (0 <= jaccard A B <= 1)%Q /\
  ((jaccard A B == 1)%Q <-> A = B) /\
  ((jaccard A B == 0)%Q <-> A ∩ B = ∅).
Proof.
  intros HA. pose proof (jaccard_sizes A B) as Hle.
  pose proof (union_size_pos A B HA) as Hpos.
  destruct (ratio_facts _ _ Hle Hpos) as (Hr & H1 & H0).
  split; [done|]. split.
  - unfold jaccard. rewrite H1. split.
    + intros Hs. assert (A ∩ B = A ∪ B) as E.
      { apply set_subseteq_size_eq; [set_solver|lia]. }
      apply set_eq. intros x. split; intros Hx.
      * assert (x ∈ A ∪ B) as Hu by set_solver. rewrite <- E in Hu. set_solver.
      * assert (x ∈ A ∪ B) as Hu by set_solver. rewrite <- E in Hu. set_solver.
    + intros ->. by rewrite (idemp_L (∩) B), (idemp_L (∪) B).
  - unfold jaccard. rewrite H0. split.
    + intros Hs. apply leibniz_equiv. by apply size_empty_iff.
    + intros ->. apply size_empty.
Qed.

Lemma charset_nil_iff s : charset s = ∅ <-> s = [].
Proof.
  split; [|by intros ->].
  destruct s as [|c s]; [done|]. intros H.
  assert (c ∈ charset (c :: s)) as Hc.
  { unfold charset. rewrite elem_of_list_to_set. by left. }
  rewrite H in Hc. by apply not_elem_of_empty in Hc.
Qed.

(** X5: the similarity score always lies between 0 and 1. *)
Theorem similarity_range (s1 s2 : jsstring) :
  (0 <= calculateSimilarity s1 s2 <= 1)%Q.
Proof.
  rewrite similarity_refines. unfold similarity_spec.
  destruct (decide (s1 = [] \/ s2 = [])) as [|He]; [done|].
  destruct (decide (s1 = s2)); [done|].
  apply jaccard_facts, charset_size_pos. tauto.
Qed.

Lemma similarity_one s1 s2 :
  s1 <> [] -> s2 <> [] ->
  (calculateSimilarity s1 s2 == 1)%Q <-> charset s1 = charset s2.
Proof.
  intros H1 H2. rewrite similarity_refines. unfold similarity_spec.
  destruct (decide (s1 = [] \/ s2 = [])); [tauto|].
  destruct (decide (s1 = s2)) as [->|]; [done|].
  by apply jaccard_facts, charset_size_pos.
Qed.

Lemma similarity_zero s1 s2 :
  (calculateSimilarity s1 s2 == 0)%Q <-> charset s1 ∩ charset s2 = ∅.
Proof.
  rewrite similarity_refines. unfold similarity_spec.
  destruct (decide (s1 = [] \/ s2 = [])) as [[->| ->]|He].
  - split; [|done]. intros _. unfold charset. set_solver.
  - split; [|done]. intros _. unfold charset. set_solver.
  - destruct (decide (s1 = s2)) as [->|].
    + split; [done|]. rewrite (idemp_L (∩) _), charset_nil_iff. tauto.
    + apply jaccard_facts, charset_size_pos. tauto.
Qed.

(** X6: for non-empty strings the score is 1 exactly when the two
    strings use the same set of characters, whatever their order and
    multiplicity. *)
Theorem similarity_one_iff_same_characters (s1 s2 : jsstring) :
  s1 <> [] -> s2 <> [] ->
  (calculateSimilarity s1 s2 == 1)%Q <-> charset s1 = charset s2.
Proof. apply similarity_one. Qed.

Lemma similarity_one_iff_same_characters_witness :
  (calculateSimilarity (js "abca") (js "cab") == 1)%Q <->
  charset (js "abca") = charset (js "cab").
Proof.
  apply (similarity_one_iff_same_characters (js "abca") (js "cab"));
    discriminate.
Defined.

(** X7: the score is 0 exactly when the two strings share no character
    (in particular when one of them is empty). *)
Theorem similarity_zero_iff_disjoint (s1 s2 : jsstring) :
  (calculateSimilarity s1 s2 == 0)%Q <-> charset s1 ∩ charset s2 = ∅.
Proof. apply similarity_zero. Qed.

(** ** The gate and the characters of the text *)

Lemma unspeakable_nonempty text : unspeakable text = false -> text <> [].
Proof. by intros H ->. Qed.

(** X8: with smart suppression on and without [force], a text made of
    exactly the characters of the text being spoken never interrupts
    it. *)
Theorem playTTS_same_characters_suppressed (st : Speech) (text : jsstring) :
  isSmartSpeech st = true -> isSpeaking st = true ->
  currentSpeakingText st <> [] ->
  charset text = charset (currentSpeakingText st) ->
  playTTS st text false = (st, []).
Proof.
  intros Hs Hp Hc Heq. destruct (unspeakable text) eqn:Hu.
  { by apply playTTS_unspeakable. }
  rewrite playTTS_speakable, Hs, Hp by done. simpl.
  assert (Qle_bool (1 # 4) (calculateSimilarity text (currentSpeakingText st))
          = true) as ->; [|done].
  apply Qle_bool_iff.
  apply (similarity_one text) in Heq; [|by apply unspeakable_nonempty|done].
  rewrite Heq. done.
Qed.

Lemma playTTS_same_characters_suppressed_witness :
  playTTS speaking_state (js "好很氣天今") false = (speaking_state, []).
Proof.
  apply (playTTS_same_characters_suppressed speaking_state (js "好很氣天今"));
    [reflexivity|reflexivity|discriminate|].
  apply set_eq. intros x. unfold charset, speaking_state.
  cbn [currentSpeakingText]. rewrite !elem_of_list_to_set. vm_compute js.
  rewrite !elem_of_cons, !elem_of_nil. tauto.
Defined.

(** X9: a speakable text that shares no character with the text being
    spoken always starts playback, whatever the settings. *)
Theorem playTTS_disjoint_speaks (st : Speech) (text : jsstring) (force : bool) :
  unspeakable text = false ->
  charset text ∩ charset (currentSpeakingText st) = ∅ ->
  playTTS st text force
  = (fst (stopAllSpeech st), [Cancel; Speak text (speechRate st)]).
Proof.
  intros Hu Hd. rewrite playTTS_speakable by done.
  assert (Qle_bool (1 # 4) (calculateSimilarity text (currentSpeakingText st))
          = false) as ->; [|by rewrite andb_false_r].
  apply not_true_is_false. rewrite Qle_bool_iff.
  apply similarity_zero in Hd. rewrite Hd. intros H.
  unfold Qle in H. simpl in H. lia.
Qed.

Lemma playTTS_disjoint_speaks_witness :
  playTTS speaking_state (js "明日有雨") false
  = (fst (stopAllSpeech speaking_state),
     [Cancel; Speak (js "明日有雨") (speechRate speaking_state)]).
Proof.
  apply (playTTS_disjoint_speaks speaking_state (js "明日有雨") false);
    [reflexivity|].
  apply set_eq. intros x. unfold charset, speaking_state.
  cbn [currentSpeakingText].
  rewrite elem_of_intersection, !elem_of_list_to_set. vm_compute js.
  rewrite !elem_of_cons, !elem_of_nil. split; [|by intros ?%not_elem_of_empty].
  intros [H1 H2]. exfalso. lia.
Defined.

(** ** The speech state *)

Lemma playTTS_cases st text force :
  playTTS st text force = (st, []) \/
  (unspeakable text = false /\
   playTTS st text force
   = (fst (stopAllSpeech st), [Cancel; Speak text (speechRate st)])).
Proof.
  destruct (unspeakable text) eqn:Hu.
  - left. by apply playTTS_unspeakable.
  - rewrite playTTS_speakable by done. destruct (_ && _ && _ && _); auto.
Qed.

Lemma speechStep_consistent st handed ev st' calls :
  consistent st -> Forall (fun t => unspeakable t = false) handed ->
  match ev with
  | UtteranceStart text => text ∈ handed
  | _ => True
  end ->
  speechStep st ev = (st', calls) ->
  consistent st' /\
  Forall (fun t => unspeakable t = false) (spokenTexts calls ++ handed).
Proof.
  intros Hc Hh Hev Hstep. destruct Hc as [Hc0 Hc1].
  destruct ev; simpl in Hstep; unfold stopAllSpeech in Hstep.
  - destruct (playTTS_cases st text force) as [E|[Hu E]];
      rewrite E in Hstep; simplify_eq; [by repeat split|].
    split; [by split|]. simpl. by constructor.
  - simplify_eq. by repeat split.
  - simplify_eq. by repeat split.
  - simplify_eq. by repeat split.
  - simplify_eq. split; [|done]. split; [done|]. intros _. simpl.
    rewrite Forall_forall in Hh. by apply Hh.
  - simplify_eq. by repeat split.
  - simplify_eq. by repeat split.
Qed.

Lemma speechRun_consistent evs : forall st handed st' handed',
  consistent st -> Forall (fun t => unspeakable t = false) handed ->
  speechRun st handed evs = Some (st', handed') ->
  consistent st' /\ Forall (fun t => unspeakable t = false) handed'.
Proof.
  induction evs as [|ev rest IH]; intros st handed st' handed' Hc Hh; simpl.
  { by intros [= <- <-]. }
  destruct (match ev with
            | UtteranceStart text => bool_decide (text ∈ handed)
            | _ => true
            end) eqn:Hadm; [|done].
  destruct (speechStep st ev) as [st1 calls] eqn:Hstep.
  destruct (speechStep_consistent st handed ev st1 calls Hc Hh) as [Hc1 Hh1];
    [|done|by apply IH].
  destruct ev; try done. by apply bool_decide_eq_true in Hadm.
Qed.

(** X10: from the mounted component on, whatever the calls of [playTTS],
    the stops, the settings and the reports of the utterances, the text
    being spoken is recorded exactly while the speaking flag is set, and
    it is never empty, the sentinel or a placeholder. *)
Theorem speech_state_consistent (evs : list speechEvent)
  (st : Speech) (handed : list jsstring) :
  speechRun initialSpeech [] evs = Some (st, handed) ->
  consistent st /\ Forall (fun t => unspeakable t = false) handed.
Proof.
  apply speechRun_consistent; [|done]. by split.
Qed.

Lemma speech_state_consistent_witness :
  consistent
    {| isSmartSpeech := true; isSpeaking := true; speechRate := 1;
       currentSpeakingText := js "今天天氣很好" |} /\
  Forall (fun t => unspeakable t = false) [js "今天天氣很好"].
Proof.
  apply (speech_state_consistent
           [Play (js "今天天氣很好") false;
            UtteranceStart (js "今天天氣很好");
            Play (js "今天天氣真好") false;
            Play (js "無文字") true]).
  vm_compute. reflexivity.
Defined.

(** ** The scan loop *)

Module LiveFacts.
Import Gemini Live.

Lemma scanReady_false rec app f :
  scanReady app f = false -> captureAndProcess rec app f = (app, []).
Proof.
  unfold scanReady, captureAndProcess.
  destruct (refsReady f), (isLiveActive app), (isPaused app); simpl; try done.
  destruct (isProcessing (status app)); simpl; [done|].
  destruct (videoWidth f =? 0); simpl; [done|].
  by destruct (contextReady f).
Qed.

Lemma presentable_test t :
  falsy t || str_eqb t noText || (length (trim t) =? 0)%nat = false <->
  presentable t.
Proof.
  unfold presentable, str_eqb.
  rewrite !orb_false_iff, bool_decide_eq_false, Nat.eqb_neq. split.
  - intros [[H1 H2] H3]. repeat split; [by intros ->|done|].
    intros E. by rewrite E in H3.
  - intros (H1 & H2 & H3). repeat split; [by destruct t|done|].
    by destruct (trim t).
Qed.

(** The three outcomes of a scan that passes the early returns. *)
Lemma captureAndProcess_ready rec app f :
  scanReady app f = true ->
  captureAndProcess rec app f
  = match rec (dataUrl f) with
    | Return t =>
      if falsy t || str_eqb t noText || (length (trim t) =? 0)%nat
      then
        ({| status := IDLE; resultText := []; errorMsg := None;
            history := history app; latestScan := None;
            countdown := countdown app; isLiveActive := isLiveActive app;
            isPaused := isPaused app; isAutoTTS := isAutoTTS app;
            speech := speech app |}, [])
      else
        let r := if isAutoTTS app
                 then playTTS
                        {| isSmartSpeech := isSmartSpeech (speech app);
                           isSpeaking := isSpeaking (speech app);
                           speechRate := speechRate (speech app);
                           currentSpeakingText := spokenAtCompletion f |}
                        t false
                 else (speech app, []) in
        ({| status := SUCCESS; resultText := t; errorMsg := None;
            history := recordOf f t :: take 49 (history app);
            latestScan :=
              Some {| shown := {| id := tempId f; timestamp := shownAt f;
                                  imageUrl := dataUrl f; text := t |};
                      isPending := false |};
            countdown := countdown app; isLiveActive := isLiveActive app;
            isPaused := isPaused app; isAutoTTS := isAutoTTS app;
            speech := fst r |}, snd r)
    | Throw err =>
      ({| status := ERROR; resultText := resultText app;
          errorMsg := Some (messageOr err (js "辨識失敗"));
          history := history app;
          latestScan :=
            Some {| shown := {| id := tempId f; timestamp := shownAt f;
                                imageUrl := dataUrl f;
                                text := js "辨識失敗: "
                                        ++ messageOr err (js "辨識失敗") |};
                    isPending := false |};
          countdown := SCAN_INTERVAL + 5; isLiveActive := isLiveActive app;
          isPaused := isPaused app; isAutoTTS := isAutoTTS app;
          speech := speech app |}, [])
    end.
Proof.
  unfold scanReady, captureAndProcess.
  destruct (refsReady f), (isLiveActive app), (isPaused app); simpl; try done.
  destruct (isProcessing (status app)); simpl; [done|].
  destruct (videoWidth f =? 0); simpl; [done|].
  destruct (contextReady f); simpl; [|done]. intros _.
  destruct (rec (dataUrl f)) as [t|err]; [|done].
  destruct (_ || _ || _); [done|].
  by destruct (if isAutoTTS app then _ else _).
Qed.

Lemma deleteEntry_ok h item : historyOk h -> historyOk (deleteEntry h item).
Proof.
  intros [Hl Hp]. unfold deleteEntry. split.
  - pose proof (List.filter_length_le
                  (fun h0 => negb (str_eqb (id h0) (id item))) h). lia.
  - rewrite Forall_forall in Hp |- *. intros r Hr.
    apply list_elem_of_In, filter_In in Hr as [Hr _].
    by apply Hp, list_elem_of_In.
Qed.

(** X11: the history never holds more than 50 records, and never a
    record whose text is empty, blank or the no-text sentinel: both a
    scan, whatever its outcome, and a deletion keep it so. *)
Theorem history_invariant (rec : jsstring -> outcome jsstring)
  (app : App) (f : Frame) (item : ScanResult) :
  historyOk (history app) ->
  historyOk (history (fst (captureAndProcess rec app f))) /\
  historyOk (deleteEntry (history app) item).
Proof.
  intros Hok. split; [|by apply deleteEntry_ok].
  destruct (scanReady app f) eqn:Hr;
    [|by rewrite scanReady_false].
  rewrite captureAndProcess_ready by done.
  destruct (rec (dataUrl f)) as [t|err]; [|done].
  destruct (_ || _ || _) eqn:Ht; [done|]. apply presentable_test in Ht.
  destruct Hok as [Hl Hp]. simpl. split.
  - simpl. rewrite length_take. lia.
  - constructor; [done|]. by apply Forall_take.
Qed.

Lemma history_invariant_witness :
  length (history fullApp) = 50%nat /\
  pastRecord 7 ∈ history fullApp /\
  historyOk (history (fst (captureAndProcess
                             (fun _ => Return (js "明天會下雨"))
                             fullApp sampleFrame))) /\
  historyOk (deleteEntry (history fullApp) (pastRecord 7)).
Proof.
  split; [reflexivity|]. split.
  { apply (list_elem_of_fmap_2 pastRecord), elem_of_seq. lia. }
  apply (history_invariant (fun _ => Return (js "明天會下雨"))
           fullApp sampleFrame (pastRecord 7)).
  split; [vm_compute; lia|].
  apply Forall_fmap, Forall_forall. intros n _.
  repeat split; vm_compute; discriminate.
Defined.

(** On that full history the scan puts the new record first and drops
    the oldest, and the deletion removes the one record asked for. *)
Example history_full_scan_and_delete :
  let h := history (fst (captureAndProcess
                           (fun _ => Return (js "明天會下雨"))
                           fullApp sampleFrame)) in
  length h = 50%nat /\
  h !! 0%nat = Some (recordOf sampleFrame (js "明天會下雨")) /\
  h !! 49%nat = Some (pastRecord 48) /\
  length (deleteEntry (history fullApp) (pastRecord 7)) = 49%nat /\
  deleteEntry (history fullApp) (pastRecord 7) !! 7%nat = Some (pastRecord 8).
Proof. vm_compute. done. Qed.

(** X12: a scan changes the history or calls the synthesizer only when
    none of its early returns is taken and the backend returned a text
    that is not empty, not blank and not the sentinel; a failure or an
    empty result does neither. *)
Theorem scan_effects_need_text (rec : jsstring -> outcome jsstring)
  (app : App) (f : Frame) :
  history (fst (captureAndProcess rec app f)) <> history app \/
  snd (captureAndProcess rec app f) <> [] ->
  scanReady app f = true /\
  exists t, rec (dataUrl f) = Return t /\ presentable t /\
    history (fst (captureAndProcess rec app f))
    = recordOf f t :: take 49 (history app).
Proof.
  destruct (scanReady app f) eqn:Hr.
  2:{ rewrite scanReady_false by done. simpl. intros [?|?]; done. }
  rewrite captureAndProcess_ready by done.
  destruct (rec (dataUrl f)) as [t|err].
  2:{ simpl. intros [?|?]; done. }
  destruct (_ || _ || _) eqn:Ht.
  { simpl. intros [?|?]; done. }
  intros _. split; [done|]. exists t. apply presentable_test in Ht. done.
Qed.

Lemma scan_effects_need_text_witness :
  scanReady liveApp sampleFrame = true /\
  exists t, (fun _ : jsstring => Return (js "今天天氣很好")) (dataUrl sampleFrame)
            = Return t /\ presentable t /\
    history (fst (captureAndProcess (fun _ => Return (js "今天天氣很好"))
                    liveApp sampleFrame))
    = recordOf sampleFrame t :: take 49 (history liveApp).
Proof.
  apply (scan_effects_need_text (fun _ => Return (js "今天天氣很好"))
           liveApp sampleFrame).
  left. discriminate.
Defined.



(** What the render knew when the scan started and what the ref holds
    when it completes are read separately.  A playback that ended while
    the backend was working no longer suppresses a similar text, and a
    playback that began meanwhile does not protect itself: the render
    that started the scan did not see it. *)
Example scan_speaks_after_playback_ended :
  snd (captureAndProcess (fun _ => Return (js "今天天氣真好"))
         speakingApp sampleFrame)
  = [Cancel; Speak (js "今天天氣真好") 1].
Proof. reflexivity. Qed.

Example scan_interrupts_playback_begun_meanwhile :
  snd (captureAndProcess (fun _ => Return (js "今天天氣真好"))
         liveApp frameWhileSpeaking)
  = [Cancel; Speak (js "今天天氣真好") 1].
Proof. reflexivity. Qed.

Lemma performLocalOCR_return pre rec img raw :
  rec (pre img) = Return raw ->
  Local.performLocalOCR pre rec img
  = Return (if decide (cleanOcrText raw = []) then noText
            else cleanOcrText raw).
Proof.
  unfold Local.performLocalOCR. intros ->.
  by destruct (cleanOcrText raw).
Qed.

Lemma cleaned_presentable raw :
  cleanOcrText raw <> [] -> cleanOcrText raw <> noText ->
  presentable (cleanOcrText raw).
Proof.
  intros H1 H2. repeat split; [done|done|].
  destruct (cleanOcrText_edges raw) as [Hh Hl].
  by rewrite trim_fixed.
Qed.

(** X14: in the scan loop with the local backend, a frame is recorded
    exactly when the cleaned text of the engine is neither empty nor,
    literally, the sentinel; it is then the cleaned text that heads the
    history and is displayed.  Otherwise the display is cleared and the
    history and the speech are left alone. *)
Theorem local_scan_records_cleaned_text
  (pre : jsstring -> jsstring) (rec : jsstring -> outcome jsstring)
  (app : App) (f : Frame) (raw : jsstring) :
  scanReady app f = true ->
  rec (pre (dataUrl f)) = Return raw ->
  let r := captureAndProcess (Local.performLocalOCR pre rec) app f in
  if decide (cleanOcrText raw = [] \/ cleanOcrText raw = noText)
  then history (fst r) = history app /\ resultText (fst r) = [] /\
       latestScan (fst r) = None /\ status (fst r) = IDLE /\
       speech (fst r) = speech app /\ snd r = []
  else history (fst r) = recordOf f (cleanOcrText raw) :: take 49 (history app)
       /\ resultText (fst r) = cleanOcrText raw /\ status (fst r) = SUCCESS.
Proof.
  intros Hr Hrec r. unfold r.
  rewrite captureAndProcess_ready, (performLocalOCR_return _ _ _ _ Hrec)
    by done.
  destruct (decide (cleanOcrText raw = [] \/ cleanOcrText raw = noText))
    as [[E|E]|Hn].
  - rewrite E. by destruct (decide _).
  - rewrite E. by destruct (decide _).
  - destruct (decide (cleanOcrText raw = [])) as [|Hne]; [tauto|].
    assert (presentable (cleanOcrText raw)) as Hp
      by (apply cleaned_presentable; tauto).
    apply presentable_test in Hp. rewrite Hp. done.
Qed.

Lemma local_scan_records_cleaned_text_witness :
  let r := captureAndProcess
             (Local.performLocalOCR (fun s => s)
                (fun _ => Return (js "今 | 天_天 ^ 氣 真 好!!!")))
             liveApp sampleFrame in
  if decide (cleanOcrText (js "今 | 天_天 ^ 氣 真 好!!!") = [] \/
             cleanOcrText (js "今 | 天_天 ^ 氣 真 好!!!") = noText)
  then history (fst r) = history liveApp /\ resultText (fst r) = [] /\
       latestScan (fst r) = None /\ status (fst r) = IDLE /\
       speech (fst r) = speech liveApp /\ snd r = []
  else history (fst r)
       = recordOf sampleFrame (cleanOcrText (js "今 | 天_天 ^ 氣 真 好!!!"))
           :: take 49 (history liveApp)
       /\ resultText (fst r) = cleanOcrText (js "今 | 天_天 ^ 氣 真 好!!!")
       /\ status (fst r) = SUCCESS.
Proof.
  apply (local_scan_records_cleaned_text (fun s => s)
           (fun _ => Return (js "今 | 天_天 ^ 氣 真 好!!!"))
           liveApp sampleFrame (js "今 | 天_天 ^ 氣 真 好!!!"));
    reflexivity.
Defined.

(** X15: the upload button displays whatever text the backend returns
    and speaks it with [force], so a result is spoken whatever is being
    spoken at the time, unless it is the sentinel or contains a
    placeholder, in which case nothing is spoken. *)
Theorem upload_speaks_result (rec : jsstring -> outcome jsstring)
  (app : App) (image t : jsstring) :
  rec image = Return t ->
  resultText (fst (recognizeUpload rec app image)) = t /\
  status (fst (recognizeUpload rec app image)) = SUCCESS /\
  history (fst (recognizeUpload rec app image)) = history app /\
  snd (recognizeUpload rec app image)
  = if unspeakable t then []
    else [Cancel; Speak t (speechRate (speech app))].
Proof.
  intros Hrec. unfold recognizeUpload. rewrite Hrec.
  destruct (unspeakable t) eqn:Hu.
  - by rewrite playTTS_unspeakable.
  - rewrite playTTS_speakable by done. simpl. by rewrite andb_false_r.
Qed.

Lemma upload_speaks_result_witness :
  resultText (fst (recognizeUpload (fun _ => Return (js "明天會下雨"))
                     speakingApp Gemini.sampleImage)) = js "明天會下雨" /\
  status (fst (recognizeUpload (fun _ => Return (js "明天會下雨")) speakingApp
                 Gemini.sampleImage)) = SUCCESS /\
  history (fst (recognizeUpload (fun _ => Return (js "明天會下雨")) speakingApp
                  Gemini.sampleImage)) = history speakingApp /\
  snd (recognizeUpload (fun _ => Return (js "明天會下雨")) speakingApp
         Gemini.sampleImage)
  = [Cancel; Speak (js "明天會下雨") (speechRate (speech speakingApp))].
Proof.
  apply (upload_speaks_result (fun _ => Return (js "明天會下雨")) speakingApp
           Gemini.sampleImage (js "明天會下雨")).
  reflexivity.
Defined.

(** The same handler on a result that [playTTS] declines. *)
Example upload_does_not_speak_sentinel :
  resultText (fst (recognizeUpload (fun _ => Return noText) speakingApp
                     Gemini.sampleImage)) = noText /\
  snd (recognizeUpload (fun _ => Return noText) speakingApp Gemini.sampleImage)
  = [].
Proof. split; reflexivity. Qed.

(** The countdown. *)

Lemma tick_down (c : Z) (m : nat) :
  Z.of_nat m < c -> Nat.iter m tick c = c - Z.of_nat m.
Proof.
  induction m as [|m IH]; intros H; [simpl; lia|].
  rewrite Nat.iter_succ, IH by lia. unfold tick.
  destruct (Z.leb_spec (c - Z.of_nat m) 1); lia.
Qed.

Lemma tick_due (c : Z) :
  1 <= c ->
  let due := Z.to_nat (if c <=? SCAN_INTERVAL then c else c - SCAN_INTERVAL) in
  Nat.iter due tick c = SCAN_INTERVAL /\
  forall m, (0 < m < due)%nat -> Nat.iter m tick c <> SCAN_INTERVAL.
Proof.
  intros Hc due. unfold due, SCAN_INTERVAL.
  destruct (Z.leb_spec c 5) as [Hle|Hgt].
  - split.
    + replace (Z.to_nat c) with (S (Z.to_nat (c - 1))) by lia.
      rewrite Nat.iter_succ, tick_down by lia. unfold tick, SCAN_INTERVAL.
      destruct (Z.leb_spec (c - Z.of_nat (Z.to_nat (c - 1))) 1); lia.
    + intros m Hm. rewrite tick_down by lia. lia.
  - split.
    + rewrite tick_down by lia. lia.
    + intros m Hm. rewrite tick_down by lia. lia.
Qed.

(** While the timer runs, [m] seconds are [m] updates of the countdown
    and of nothing else. *)
Lemma seconds_running (app : App) (m : nat) :
  timerRuns true app = true ->
  timerRuns true (Nat.iter m (second true) app) = true /\
  countdown (Nat.iter m (second true) app) = Nat.iter m tick (countdown app) /\
  isLiveActive (Nat.iter m (second true) app) = isLiveActive app /\
  isPaused (Nat.iter m (second true) app) = isPaused app.
Proof.
  intros Hrun. induction m as [|m (IH1 & IH2 & IH3 & IH4)]; [done|].
  rewrite !Nat.iter_succ. unfold second at 1 3 5 7. rewrite IH1.
  cbn [countdown isLiveActive isPaused]. rewrite IH2.
  repeat split; [|done..]. revert IH1. unfold timerRuns. done.
Qed.

Lemma scanDue_running (app : App) :
  timerRuns true app = true ->
  scanDue true app = (countdown app =? SCAN_INTERVAL).
Proof.
  unfold timerRuns, scanDue. simpl. intros [-> ->]%andb_true_iff.
  by rewrite !andb_true_r.
Qed.

Lemma scanReady_timerRuns app f :
  scanReady app f = true -> timerRuns true app = true.
Proof.
  unfold scanReady, timerRuns.
  destruct (refsReady f), (isLiveActive app), (isPaused app); simpl; done.
Qed.

(** X16: the scan effect calls [captureAndProcess] when the countdown
    equals [SCAN_INTERVAL].  While the timer runs, from a countdown [c]
    between 1 and [SCAN_INTERVAL] that next happens after exactly [c]
    seconds, and from a larger one after exactly [c - SCAN_INTERVAL]
    seconds.  A scan whose backend fails sets the countdown to
    [SCAN_INTERVAL + 5], so the next scan is called after exactly five
    seconds, where it would have been after [SCAN_INTERVAL] had the
    countdown been left at [SCAN_INTERVAL]. *)
Theorem ticks_until_scan :
  (forall app,
     timerRuns true app = true -> 1 <= countdown app ->
     let due := Z.to_nat (if countdown app <=? SCAN_INTERVAL then countdown app
                          else countdown app - SCAN_INTERVAL) in
     scanDue true (Nat.iter due (second true) app) = true /\
     forall m, (0 < m < due)%nat ->
       scanDue true (Nat.iter m (second true) app) = false) /\
  (forall rec app f e,
     scanReady app f = true -> rec (dataUrl f) = Throw e ->
     let app' := fst (captureAndProcess rec app f) in
     countdown app' = SCAN_INTERVAL + 5 /\
     scanDue true (Nat.iter 5 (second true) app') = true /\
     forall m, (m < 5)%nat ->
       scanDue true (Nat.iter m (second true) app') = false).
Proof.
  assert (forall app due,
    timerRuns true app = true -> 1 <= countdown app ->
    due = Z.to_nat (if countdown app <=? SCAN_INTERVAL then countdown app
                    else countdown app - SCAN_INTERVAL) ->
    scanDue true (Nat.iter due (second true) app) = true /\
    forall m, (0 < m < due)%nat ->
      scanDue true (Nat.iter m (second true) app) = false) as Hgen.
  { intros app due Hrun Hc ->.
    destruct (tick_due (countdown app) Hc) as [Hd Hn]. split.
    - destruct (seconds_running app
                  (Z.to_nat (if countdown app <=? SCAN_INTERVAL
                             then countdown app
                             else countdown app - SCAN_INTERVAL)) Hrun)
        as (H1 & H2 & _).
      rewrite scanDue_running, H2, Hd by done. apply Z.eqb_refl.
    - intros m Hm. destruct (seconds_running app m Hrun) as (H1 & H2 & _).
      rewrite scanDue_running, H2 by done. apply Z.eqb_neq. by apply Hn. }
  split; [intros app Hrun Hc due; by apply Hgen|].
  intros rec app f e Hr Hrec app'.
  assert (countdown app' = SCAN_INTERVAL + 5 /\ timerRuns true app' = true)
    as [Hc Hrun].
  { unfold app'. rewrite captureAndProcess_ready, Hrec by done.
    split; [done|]. apply scanReady_timerRuns in Hr. done. }
  split; [done|].
  destruct (Hgen app' 5%nat Hrun) as [Hd Hn];
    [rewrite Hc; unfold SCAN_INTERVAL; lia
    |rewrite Hc; unfold SCAN_INTERVAL; reflexivity|].
  split; [done|]. intros m Hm. destruct m as [|m]; [|apply Hn; lia].
  simpl. rewrite scanDue_running, Hc by done. reflexivity.
Qed.

Lemma ticks_until_scan_witness :
  (scanDue true (Nat.iter 3 (second true) fullApp) = false /\
   scanDue true (Nat.iter 5 (second true) fullApp) = true) /\
  countdown (fst (captureAndProcess (fun _ => Throw (Error (js "fetch failed")))
                    liveApp sampleFrame)) = SCAN_INTERVAL + 5 /\
  scanDue true
    (Nat.iter 5 (second true)
       (fst (captureAndProcess (fun _ => Throw (Error (js "fetch failed")))
               liveApp sampleFrame))) = true /\
  forall m, (m < 5)%nat ->
    scanDue true
      (Nat.iter m (second true)
         (fst (captureAndProcess (fun _ => Throw (Error (js "fetch failed")))
                 liveApp sampleFrame))) = false.
Proof.
  pose proof ticks_until_scan as [Hgen Hfail]. split.
  - destruct (Hgen fullApp) as [Hd Hn]; [reflexivity|vm_compute; discriminate|].
    split; [apply Hn; vm_compute; lia|exact Hd].
  - apply (Hfail (fun _ => Throw (Error (js "fetch failed"))) liveApp
             sampleFrame (Error (js "fetch failed"))); reflexivity.
Defined.

End LiveFacts.

(** ** Data URLs and the cloud backend *)

Module ServiceFacts.
Import Gemini GeminiFacts.

(** X17: a data URL [data:image/<subtype>;base64,<payload>] with a
    non-empty subtype of word characters and a non-empty payload without
    line terminators is split into exactly its MIME type and its payload,
    and nothing else is accepted as one: an accepted string is rebuilt
    from the two parts, and the parts are such a subtype and such a
    payload. *)
Theorem dataUrl_round_trip :
  (forall w p,
     w <> [] -> forallb isWord w = true ->
     p <> [] -> forallb isDot p = true ->
     matchDataUrl (js "data:" ++ (js "image/" ++ w) ++ js ";base64," ++ p)
     = Some (js "image/" ++ w, p)) /\
  (forall s m p,
     matchDataUrl s = Some (m, p) ->
     s = js "data:" ++ m ++ js ";base64," ++ p /\
     p <> [] /\ forallb isDot p = true /\
     exists w, m = js "image/" ++ w /\ w <> [] /\ forallb isWord w = true).
Proof.
  split.
  - intros w p Hw Hww Hp Hpd.
    by rewrite <- (matchDataUrl_build w p).
  - intros s m p (w & -> & -> & Hw & Hww & Hp & Hpd)%matchDataUrl_inv.
    repeat split; [done..|]. by exists w.
Qed.

Lemma dataUrl_round_trip_witness :
  matchDataUrl (js "data:" ++ (js "image/" ++ js "png") ++ js ";base64,"
                ++ js "iVBORw0KGgo=")
  = Some (js "image/" ++ js "png", js "iVBORw0KGgo=") /\
  (js "data:image/png;base64,iVBORw0KGgo="
   = js "data:" ++ js "image/png" ++ js ";base64," ++ js "iVBORw0KGgo=" /\
   js "iVBORw0KGgo=" <> [] /\ forallb isDot (js "iVBORw0KGgo=") = true /\
   exists w, js "image/png" = js "image/" ++ w /\ w <> [] /\
     forallb isWord w = true).
Proof.
  split.
  - apply (proj1 dataUrl_round_trip (js "png") (js "iVBORw0KGgo="));
      first [discriminate | reflexivity].
  - apply (proj2 dataUrl_round_trip (js "data:image/png;base64,iVBORw0KGgo=")
             (js "image/png") (js "iVBORw0KGgo=")).
    reflexivity.
Defined.

(** A payload with a line break is not accepted. *)
Example dataUrl_line_break :
  matchDataUrl (js "data:image/png;base64,iVBOR" ++ [0x0A] ++ js "w0KGgo=")
  = None.
Proof. reflexivity. Qed.

Lemma attempt_imageParts apiKey generateContent img :
  attempt apiKey generateContent img
  = if falsy apiKey then Throw (Error (js "API Key 未設定"))
    else if falsy (snd (imageParts img))
            || (length (snd (imageParts img)) <? 10)%nat
    then Throw (Error (js "影像數據格式錯誤，請重新拍攝。"))
    else match generateContent (fst (imageParts img)) (snd (imageParts img)) with
         | Return response => Return (responseText response)
         | Throw e => Throw e
         end.
Proof.
  unfold attempt, imageParts. destruct (falsy apiKey); [done|].
  destruct (matchDataUrl img) as [[mime payload]|]; [done|].
  by destruct (includes img (js ",")).
Qed.

(** X18: the remote service is consulted only with a key and with a
    payload of at least ten code units: without a key every call fails
    with the generic message about the missing key, and two services that
    agree on payloads of ten units or more give the same result, whatever
    the key and the image. *)
Theorem service_sees_only_long_payloads
  (apiKey : jsstring)
  (service1 service2 : jsstring -> jsstring -> outcome (option jsstring))
  (img : jsstring) :
  (forall mime data, (10 <= length data)%nat ->
     service1 mime data = service2 mime data) ->
  performGeminiOCR apiKey service1 img = performGeminiOCR apiKey service2 img /\
  performGeminiOCR [] service1 img
  = Throw (Error (js "AI 辨識異常: API Key 未設定")).
Proof.
  intros H. split; [|reflexivity].
  unfold performGeminiOCR. rewrite !attempt_imageParts.
  destruct (falsy apiKey); [done|].
  destruct (falsy (snd (imageParts img))); simpl; [done|].
  destruct (Nat.ltb_spec (length (snd (imageParts img))) 10); [done|].
  by rewrite H.
Qed.

Lemma service_sees_only_long_payloads_witness :
  performGeminiOCR (js "key")
    (fun _ data => if (length data <? 10)%nat then Return (Some (js "x"))
                   else Return None) sampleImage
  = performGeminiOCR (js "key") (fun _ _ => Return None) sampleImage /\
  performGeminiOCR []
    (fun _ data => if (length data <? 10)%nat then Return (Some (js "x"))
                   else Return None) sampleImage
  = Throw (Error (js "AI 辨識異常: API Key 未設定")).
Proof.
  apply (service_sees_only_long_payloads (js "key")
           (fun _ data => if (length data <? 10)%nat then Return (Some (js "x"))
                          else Return None)
           (fun _ _ => Return None) sampleImage).
  intros mime data H. by destruct (Nat.ltb_spec (length data) 10); [lia|].
Defined.

Lemma trim_noText : trim noText = noText.
Proof. reflexivity. Qed.

(** X19: neither backend ever returns an empty text or a text with
    whitespace at either end: without text they return the sentinel. *)
Theorem backends_never_return_blank :
  (forall apiKey service img t,
     performGeminiOCR apiKey service img = Return t ->
     t <> [] /\ trim t = t) /\
  (forall pre rec img t,
     Local.performLocalOCR pre rec img = Return t ->
     t <> [] /\ trim t = t).
Proof.
  split.
  - intros apiKey service img t. unfold performGeminiOCR.
    rewrite attempt_imageParts. destruct (falsy apiKey); [done|].
    destruct (_ || _); [done|].
    destruct (service _ _) as [response|]; [|done].
    intros [= <-]. unfold responseText. destruct response as [t0|]; [|done].
    destruct (falsy (trim t0)) eqn:F; [done|].
    split; [by destruct (trim t0)|apply trim_idem].
  - intros pre rec img t. unfold Local.performLocalOCR.
    destruct (rec (pre img)) as [raw|]; [|done]. intros [= <-].
    destruct (cleanOcrText raw) as [|c y] eqn:E; [done|].
    simpl. rewrite <- E. split; [by rewrite E|].
    destruct (cleanOcrText_edges raw). by apply trim_fixed.
Qed.

Lemma backends_never_return_blank_witness :
  js "今天" <> [] /\ trim (js "今天") = js "今天".
Proof.
  apply (proj1 backends_never_return_blank (js "key")
           (fun _ _ => Return (Some (js " 今天 "))) sampleImage (js "今天")).
  reflexivity.
Defined.

(** The older service. *)










(** On the sample image both services hand over [image/jpeg] and the
    payload; on a subtype with a digit the newer one hands over the
    subtype and the whole payload, the older one [image/jpeg] and the
    payload up to its first comma. *)
Example legacy_parts_same :
  performGeminiOCR (js "key")
    (fun mime data => Return (Some (mime ++ js " " ++ data))) sampleImage
  = Return (js "image/jpeg /9j/4AAQSkZJRgABAQ") /\
  Legacy.performOCR
    (fun mime data => Return (Some (mime ++ js " " ++ data))) sampleImage
  = Return (js "image/jpeg /9j/4AAQSkZJRgABAQ").
Proof. split; reflexivity. Qed.

Example legacy_parts_differ :
  performGeminiOCR (js "key")
    (fun mime data => Return (Some (mime ++ js " " ++ data)))
    (js "data:image/jp2;base64,AAAAAAAAAAAA,BBBB")
  = Return (js "image/jp2 AAAAAAAAAAAA,BBBB") /\
  Legacy.performOCR
    (fun mime data => Return (Some (mime ++ js " " ++ data)))
    (js "data:image/jp2;base64,AAAAAAAAAAAA,BBBB")
  = Return (js "image/jpeg AAAAAAAAAAAA").
Proof. split; reflexivity. Qed.

End ServiceFacts.

(** ** The contrast of bytes *)

Module ContrastFacts.
Import Image ImageFacts.

Lemma stored_byte_bounds s :
  0 <= s <= 765 ->
  (s < 360 -> 0 <= stored_byte s <= 80) /\
  (360 <= s -> 160 <= stored_byte s <= 255).
Proof.
  intros Hs. unfold stored_byte.
  pose proof (Z.div_mod (s + 1) 3 ltac:(lia)).
  pose proof (Z.mod_pos_bound (s + 1) 3 ltac:(lia)).
  destruct (Z.ltb_spec s 360); split; lia.
Qed.

Lemma stored_byte_monotone s1 s2 :
  0 <= s1 <= s2 -> stored_byte s1 <= stored_byte s2.
Proof.
  intros Hs. unfold stored_byte.
  pose proof (Z.div_le_mono (s1 + 1) (s2 + 1) 3 ltac:(lia) ltac:(lia)).
  pose proof (Z.div_mod (s1 + 1) 3 ltac:(lia)).
  pose proof (Z.mod_pos_bound (s1 + 1) 3 ltac:(lia)).
  pose proof (Z.div_mod (s2 + 1) 3 ltac:(lia)).
  pose proof (Z.mod_pos_bound (s2 + 1) 3 ltac:(lia)).
  destruct (Z.ltb_spec s1 360), (Z.ltb_spec s2 360); lia.
Qed.

(** X21: on a buffer of bytes no pixel comes out mid-grey: a pixel whose
    channels average below 120 gets a value between 0 and 80, any other
    pixel a value between 160 and 255. *)
Theorem contrast_leaves_a_gap (data : list Z) (k : nat) (r g b a : Z) :
  data !! (4 * k)%nat = Some r ->
  data !! (4 * k + 1)%nat = Some g ->
  data !! (4 * k + 2)%nat = Some b ->
  data !! (4 * k + 3)%nat = Some a ->
  0 <= r <= 255 -> 0 <= g <= 255 -> 0 <= b <= 255 ->
  exists v,
    contrastPixels data !! (4 * k)%nat = Some v /\
    (r + g + b < 360 -> 0 <= v <= 80) /\
    (360 <= r + g + b -> 160 <= v <= 255).
Proof.
  intros Hr Hg Hb Ha Br Bg Bb.
  destruct (contrastPixels_bytes data k r g b a) as (V & _); try done.
  exists (stored_byte (r + g + b)). split; [done|].
  apply stored_byte_bounds. lia.
Qed.

Lemma contrast_leaves_a_gap_witness :
  exists v,
    contrastPixels [119; 120; 120; 255] !! (4 * 0)%nat = Some v /\
    (119 + 120 + 120 < 360 -> 0 <= v <= 80) /\
    (360 <= 119 + 120 + 120 -> 160 <= v <= 255).
Proof.
  apply (contrast_leaves_a_gap [119; 120; 120; 255] 0 119 120 120 255);
    first [reflexivity | lia].
Defined.

(** X22: the transform keeps the order of brightness: of two pixels of a
    buffer of bytes, the one with the larger channel sum never comes out
    darker. *)
Theorem contrast_keeps_order (data : list Z) (k1 k2 : nat)
  (r1 g1 b1 a1 r2 g2 b2 a2 : Z) :
  data !! (4 * k1)%nat = Some r1 ->
  data !! (4 * k1 + 1)%nat = Some g1 ->
  data !! (4 * k1 + 2)%nat = Some b1 ->
  data !! (4 * k1 + 3)%nat = Some a1 ->
  data !! (4 * k2)%nat = Some r2 ->
  data !! (4 * k2 + 1)%nat = Some g2 ->
  data !! (4 * k2 + 2)%nat = Some b2 ->
  data !! (4 * k2 + 3)%nat = Some a2 ->
  0 <= r1 <= 255 -> 0 <= g1 <= 255 -> 0 <= b1 <= 255 ->
  0 <= r2 <= 255 -> 0 <= g2 <= 255 -> 0 <= b2 <= 255 ->
  r1 + g1 + b1 <= r2 + g2 + b2 ->
  exists v1 v2,
    contrastPixels data !! (4 * k1)%nat = Some v1 /\
    contrastPixels data !! (4 * k2)%nat = Some v2 /\
    v1 <= v2.
Proof.
  intros Hr1 Hg1 Hb1 Ha1 Hr2 Hg2 Hb2 Ha2 ? ? ? ? ? ? Hle.
  destruct (contrastPixels_bytes data k1 r1 g1 b1 a1) as (V1 & _); try done.
  destruct (contrastPixels_bytes data k2 r2 g2 b2 a2) as (V2 & _); try done.
  exists (stored_byte (r1 + g1 + b1)), (stored_byte (r2 + g2 + b2)).
  repeat split; [done|done|]. apply stored_byte_monotone. lia.
Qed.

Lemma contrast_keeps_order_witness :
  exists v1 v2,
    contrastPixels [90; 100; 110; 255; 200; 230; 250; 128] !! (4 * 0)%nat
    = Some v1 /\
    contrastPixels [90; 100; 110; 255; 200; 230; 250; 128] !! (4 * 1)%nat
    = Some v2 /\
    v1 <= v2.
Proof.
  apply (contrast_keeps_order [90; 100; 110; 255; 200; 230; 250; 128] 0 1
           90 100 110 255 200 230 250 128);
    first [reflexivity | lia].
Defined.

End ContrastFacts.

(** ** Deleting from the history *)

Module HistoryFacts.
Import Live.

Lemma deleteEntry_other h item r :
  r ∈ h -> id r <> id item -> r ∈ deleteEntry h item.
Proof.
  intros Hr Hne. unfold deleteEntry. apply list_elem_of_In, filter_In.
  split; [by apply list_elem_of_In|].
  unfold str_eqb. by rewrite bool_decide_eq_false_2.
Qed.

Lemma deleteEntry_absent h item :
  id item ∉ map id h -> deleteEntry h item = h.
Proof.
  unfold deleteEntry. induction h as [|r h IH]; simpl; [done|].
  intros Hn. apply not_elem_of_cons in Hn as [Hne Hn].
  unfold str_eqb at 1. rewrite bool_decide_eq_false_2 by done. simpl.
  by rewrite IH.
Qed.

(** X23: when the identifiers of the history are pairwise different,
    deleting one of its entries removes that entry and no other: the
    history gets shorter by one, the entry is gone, and every other entry
    is still there. *)
Theorem delete_removes_one_entry (h : list ScanResult) (item : ScanResult) :
  NoDup (map id h) -> item ∈ h ->
  S (length (deleteEntry h item)) = length h /\
  (item ∉ deleteEntry h item) /\
  (forall r, r ∈ h -> r <> item -> r ∈ deleteEntry h item).
Proof.
  intros Hnd Hin. split; [|split].
  - induction h as [|r h IH]; [by apply elem_of_nil in Hin|].
    simpl in Hnd. apply NoDup_cons in Hnd as [Hr Hnd]. simpl.
    unfold str_eqb at 1. destruct (decide (id r = id item)) as [E|Hne].
    + rewrite bool_decide_eq_true_2 by done. simpl.
      fold (deleteEntry h item). rewrite deleteEntry_absent; [done|].
      by rewrite <- E.
    + rewrite bool_decide_eq_false_2 by done. simpl.
      fold (deleteEntry h item). f_equal. apply IH; [done|].
      apply elem_of_cons in Hin as [->|]; done.
  - unfold deleteEntry. rewrite list_elem_of_In, filter_In.
    intros [_ H]. unfold str_eqb in H. by rewrite bool_decide_eq_true_2 in H.
  - intros r Hr Hne. apply deleteEntry_other; [done|]. intros E.
    apply Hne. clear Hne.
    induction h as [|x h IH]; [by apply elem_of_nil in Hr|].
    simpl in Hnd. apply NoDup_cons in Hnd as [Hx Hnd].
    apply elem_of_cons in Hr as [->|Hr], Hin as [->|Hin]; try done.
    + exfalso. apply Hx. rewrite E. by apply list_elem_of_fmap_2.
    + exfalso. apply Hx. rewrite <- E. by apply list_elem_of_fmap_2.
    + by apply IH.
Qed.

Lemma delete_removes_one_entry_witness :
  S (length (deleteEntry [recordOf sampleFrame (js "甲");
                          {| id := js "2"; timestamp := 2; imageUrl := [];
                             text := js "乙" |}]
               (recordOf sampleFrame (js "甲")))) = 2%nat /\
  (recordOf sampleFrame (js "甲")
   ∉ deleteEntry [recordOf sampleFrame (js "甲");
                  {| id := js "2"; timestamp := 2; imageUrl := [];
                     text := js "乙" |}]
       (recordOf sampleFrame (js "甲"))) /\
  (forall r,
     r ∈ [recordOf sampleFrame (js "甲");
          {| id := js "2"; timestamp := 2; imageUrl := [];
             text := js "乙" |}] ->
     r <> recordOf sampleFrame (js "甲") ->
     r ∈ deleteEntry [recordOf sampleFrame (js "甲");
                      {| id := js "2"; timestamp := 2; imageUrl := [];
                         text := js "乙" |}]
           (recordOf sampleFrame (js "甲"))).
Proof.
  apply (delete_removes_one_entry
           [recordOf sampleFrame (js "甲");
            {| id := js "2"; timestamp := 2; imageUrl := []; text := js "乙" |}]
           (recordOf sampleFrame (js "甲"))).
  - change (NoDup [js "1762041600000"; js "2"]).
    apply NoDup_cons. split; [|apply NoDup_singleton].
    rewrite list_elem_of_singleton. discriminate.
  - by left.
Defined.

End HistoryFacts.
